(** * czech_educational_institutions: the table builders, the location
      resolver and the chunking of the pipeline driver

    A shallow embedding of [czech_educational_institutions.py].

    Conventions of the embedding.
    - A Python [str] is a [string]; text outside ASCII is read as its UTF-8
      bytes.  The needles the program searches for ('000', 'fakulta',
      'falulta', '60000') are ASCII, and an ASCII byte never occurs inside
      a UTF-8 multi-byte sequence, so suffix and substring tests on bytes
      agree with the tests on code points.
    - [str.lower], [list(set(..))], the Nominatim client and the Google
      Maps client are library code: they are parameters of the sections
      that use them.
    - A [dict] is a [gmap]; a pandas table is a list of rows.
    - Exceptions are values of [exn]; a call that may raise returns
      [res A]. *)

From Stdlib Require Import Ascii String QArith Lqa.
From Stdlib Require PrimFloat.
From stdpp Require Import gmap strings list fin_maps.

Local Open Scope string_scope.
Local Open Scope Z_scope.
Local Open Scope list_scope.

(** ** Exceptions *)

Inductive exn : Type :=
  | KeyboardInterrupt
  | TypeError
  | KeyError
  | IndexError
  | ValueError
  | ZeroDivisionError
  | OtherException.

Inductive res (A : Type) : Type :=
  | Ok (a : A)
  | Raise (e : exn).
Arguments Ok {A} a.
Arguments Raise {A} e.

(** ** Python string operations *)

Module PyStr.

(** [s.startswith(p)] *)
Fixpoint startswith (p s : string) : bool :=
  match p, s with
  | EmptyString, _ => true
  | String a p', String b s' => if Ascii.eqb a b then startswith p' s' else false
  | String _ _, EmptyString => false
  end.

(** [needle in s] *)
Fixpoint contains (needle s : string) : bool :=
  startswith needle s ||
  match s with
  | EmptyString => false
  | String _ s' => contains needle s'
  end.

(** [s.endswith(suffix)] *)
Fixpoint endswith (s suffix : string) : bool :=
  String.eqb s suffix ||
  match s with
  | EmptyString => false
  | String _ s' => endswith s' suffix
  end.

(** [s in l] for a list of strings *)
Definition in_list (s : string) (l : list string) : bool :=
  existsb (String.eqb s) l.

(** [str.lower] on ASCII text: the letters A-Z go to a-z and every other
    byte stays.  On text with ASCII letters only this is Python's
    [str.lower]; it instantiates the [lower] parameter in the examples. *)
Definition lower_byte (a : ascii) : ascii :=
  let n := nat_of_ascii a in
  if ((65 <=? n)%nat && (n <=? 90)%nat)%bool then ascii_of_nat (n + 32) else a.

Fixpoint ascii_lower (s : string) : string :=
  match s with
  | EmptyString => EmptyString
  | String a s' => String (lower_byte a) (ascii_lower s')
  end.

End PyStr.

(** ** The counts table and its classification *)

Inductive university_type : Type := Indicator | University | Faculty | Other.

Global Instance university_type_eq_dec : EqDecision university_type.
Proof. solve_decision. Defined.

(** The name of a type as the program writes it. *)
Definition type_name (t : university_type) : string :=
  match t with
  | Indicator => "indicator"
  | University => "university"
  | Faculty => "faculty"
  | Other => "other"
  end.

(** A row of [uni_counts] after the slice, [dropna] and the renaming of the
    columns: [code], [name] and the eleven enrolment counts. *)
Record counts_row : Type := CountsRow {
  code : string;
  name : string;
  counts : list Z
}.

Section Classification.

(** Python's [str.lower]. *)
Variable lower : string → string.

Definition get_university_type (row : counts_row) : university_type :=
  let code := code row in
  let lname := lower (name row) in
  if PyStr.endswith code "000" then
    if PyStr.in_list code ["60000"; "00000"; "10000"] then Indicator
    else University
  else if PyStr.contains "fakulta" lname || PyStr.contains "falulta" lname then
    Faculty
  else Other.

End Classification.

(** ** The row walk of [get_universities] *)

Global Instance res_ret : MRet res := λ A a, Ok a.
Global Instance res_bind : MBind res := λ A B f r,
  match r with
  | Ok a => f a
  | Raise e => Raise e
  end.

Global Instance counts_row_eq_dec : EqDecision counts_row.
Proof. solve_decision. Defined.

(** A row of [uni_counts] once the walk has been over it: the columns the
    walk creates are [None] (NaN) where it did not write them. *)
Record uni_row : Type := UniRow {
  base : counts_row;
  type : university_type;
  faculty : option string;
  university : option string;
  other : option string;
  private : Z;
  full_name : string
}.

(** [last_uni_row["name"]]: subscripting [None] is a [TypeError]. *)
Definition name_of (last_uni_row : option counts_row) : res string :=
  match last_uni_row with
  | Some r => Ok (name r)
  | None => Raise TypeError
  end.

(** [int(private)] *)
Definition int_of_bool (b : bool) : Z := if b then 1 else 0.

(** One turn of the loop [for i, row in uni_counts.iterrows()]: the loop
    variables [last_uni_row] and [private] go in and come out, with the
    row as the turn leaves it. *)
Definition walk_row (last_uni_row : option counts_row) (private : bool)
    (row : counts_row) (type : university_type)
    : res (option counts_row * bool * uni_row) :=
  let private := if String.eqb (code row) "60000" then true else private in
  if bool_decide (last_uni_row ≠ None) && bool_decide (type = Faculty) then
    uni ← name_of last_uni_row;
    let search_string := uni +:+ ", " +:+ name row in
    mret (last_uni_row, private,
          UniRow row type (Some (name row)) (Some uni) None
                 (int_of_bool private) search_string)
  else if bool_decide (type ∈ [University; Other]) then
    let last_uni_row :=
      if bool_decide (type = University) then Some row else last_uni_row in
    let other :=
      if bool_decide (type = University) then None else Some (name row) in
    uni ← name_of last_uni_row;
    let search_string := name row in
    mret (last_uni_row, private,
          UniRow row type None (Some uni) other
                 (int_of_bool private) search_string)
  else
    let search_string := name row in
    mret (last_uni_row, private,
          UniRow row type None None None (int_of_bool private) search_string).

Section Walk.

Variable lower : string → string.

(** The loop from a given state of its variables; the [type] column was
    filled by [uni_counts.apply(get_university_type, axis=1)]. *)
Fixpoint walk_from (last_uni_row : option counts_row) (private : bool)
    (uni_counts : list counts_row) : res (list uni_row) :=
  match uni_counts with
  | [] => mret []
  | row :: rest =>
      '(last_uni_row', private', out) ←
        walk_row last_uni_row private row (get_university_type lower row);
      outs ← walk_from last_uni_row' private' rest;
      mret (out :: outs)
  end.

(** [last_uni_row = None; private = False; for ...] *)
Definition walk (uni_counts : list counts_row) : res (list uni_row) :=
  walk_from None false uni_counts.

(** [uni_counts.drop(uni_counts[uni_counts['type'] == 'indicator'].index)] *)
Definition drop_indicators (table : list uni_row) : list uni_row :=
  filter (λ r, type r ≠ Indicator) table.

End Walk.

(** ** The outside world: the clock and the geocoding service *)

(** A [geopy.Location] as far as the program reads it, and a shapely
    [Point([x, y])]. Coordinates are binary64 floats, only carried. *)
Module Location.
Record t : Type := Make {
  address : string;
  latitude : PrimFloat.float;
  longitude : PrimFloat.float
}.
End Location.

Record Point : Type := MkPoint { px : PrimFloat.float; py : PrimFloat.float }.

(** How a call [nominatim.geocode(addr)] ends. *)
Inductive response : Type :=
  | Answered (coords : option Location.t)  (** a hit, or [None] for no hit *)
  | Failed                                 (** an [Exception] was raised *)
  | Interrupted.                           (** [KeyboardInterrupt] *)

(** A request as it went out: the clock at its start, the query, the end. *)
Record request : Type := Request {
  started : Q;
  query : string;
  outcome : response
}.

(** The clock (seconds, an exact fraction kept in lowest terms) and the
    requests sent so far, oldest first. *)
Record world : Type := World {
  now : Q;
  sent : list request
}.

(** Computations that read the clock, call the service and may raise. *)
Definition M (A : Type) : Type := world → res A * world.

Global Instance M_ret : MRet M := λ A a w, (Ok a, w).
Global Instance M_bind : MBind M := λ A B f c w,
  match c w with
  | (Ok a, w') => f a w'
  | (Raise e, w') => (Raise e, w')
  end.

Definition raise {A} (e : exn) : M A := λ w, (Raise e, w).

(** [try: body except KeyboardInterrupt: raise except Exception: handler];
    every [exn] but [KeyboardInterrupt] is an [Exception]. *)
Definition try_except_Exception {A} (body : M A) (handler : M A) : M A := λ w,
  match body w with
  | (Ok a, w') => (Ok a, w')
  | (Raise KeyboardInterrupt, w') => (Raise KeyboardInterrupt, w')
  | (Raise _, w') => handler w'
  end.

(** The clock [secs] seconds after [t]. *)
Definition later (t secs : Q) : Q := Qred (t + secs).

(** [time.time()] *)
Definition time_time : M Q := λ w, (Ok (now w), w).

(** [time.sleep(secs)] for [0 <= secs]; the one call of the program is
    guarded by [qdiff < 1]. *)
Definition time_sleep (secs : Q) : M () := λ w,
  (Ok (), World (later (now w) secs) (sent w)).

(** [for x in l: s = f(s, x)] *)
Fixpoint for_each {A S} (f : S → A → M S) (s : S) (l : list A) : M S :=
  match l with
  | [] => mret s
  | x :: l' => s' ← f s x; for_each f s' l'
  end.

(** Lift a pure result. *)
Definition lift {A} (r : res A) : M A := λ w, (r, w).

(** [d[k]] on a dict. *)
Definition subscript {V} (d : gmap string V) (k : string) : res V :=
  match d !! k with
  | Some v => Ok v
  | None => Raise KeyError
  end.

(** ** [get_locations] *)

Definition to_point (place : Location.t) : Point :=
  MkPoint (Location.longitude place) (Location.latitude place).

(** What [get_locations] returns, by its flag [keep_orig_response]. *)
Definition locations (keep_orig_response : bool) : Type :=
  if keep_orig_response then gmap string (option Location.t)
  else gmap string Point.

Section Nominatim.

(** The service: from the clock and the requests sent so far, and the
    query, how the call ends and how long it takes. *)
Variable nominatim : world → string → response * Q.

(** [nominatim.geocode(addr)] *)
Definition geocode (addr : string) : M (option Location.t) := λ w,
  let '(r, took) := nominatim w addr in
  let w' := World (later (now w) took) (sent w ++ [Request (now w) addr r]) in
  match r with
  | Answered coords => (Ok coords, w')
  | Failed => (Raise OtherException, w')
  | Interrupted => (Raise KeyboardInterrupt, w')
  end.

(** The body of the loop over [addresses], with its [try]. The only call
    that raises comes before [places[addr] = coords], so the handler
    finds [places] as the turn found it. *)
Definition locate (places : gmap string (option Location.t)) (addr : string)
    : M (gmap string (option Location.t)) :=
  try_except_Exception
    (if bool_decide (is_Some (places !! addr)) then mret places
     else
       qstart ← time_time;
       coords ← geocode addr;
       let places := <[addr := coords]> places in
       qend ← time_time;
       let qdiff := (qend - qstart)%Q in
       _ ← (if Qlt_le_dec qdiff 1 then time_sleep (1 - qdiff)%Q else mret ());
       mret places)
    (mret places).

Definition get_locations (addresses : list string) (keep_orig_response : bool)
    : M (locations keep_orig_response) :=
  places ← for_each locate ∅ addresses;
  match keep_orig_response return M (locations keep_orig_response) with
  | false => mret (omap (fmap to_point) places)
  | true => mret places
  end.

End Nominatim.

(** ** [get_universities] *)

(** A hit of the Google Maps client as far as the program reads it. *)
Record gcode : Type := GCode {
  formatted_address : string;
  lng : PrimFloat.float;
  lat : PrimFloat.float
}.

(** A row of [places_gdf]. *)
Record place_row : Type := PlaceRow {
  place_full_name : string;
  place_address : string;
  place_geometry : Point
}.

(** A row of the table [get_universities] returns: a row of [uni_counts]
    with the columns of [places_gdf], NaN where the merge found no match. *)
Record university_row : Type := UniversityRow {
  entity : uni_row;
  address : option string;
  geometry : option Point
}.

(** [uni_counts.merge(places_gdf, how='left', on='full_name')] *)
Definition merge_left (uni_counts : list uni_row) (places_gdf : list place_row)
    : list university_row :=
  uni_counts ≫= λ l,
    match filter (λ p, place_full_name p = full_name l) places_gdf with
    | [] => [UniversityRow l None None]
    | matches =>
        (λ p, UniversityRow l (Some (place_address p)) (Some (place_geometry p)))
          <$> matches
    end.

(** A row of [places] made from an item of [pre_places]. *)
Definition place_of_item (default_point : Point)
    (item : string * option Location.t) : place_row :=
  let '(name, place) := item in
  PlaceRow name
    (match place with None => "" | Some place => Location.address place end)
    (match place with None => default_point | Some place => to_point place end).

Section Universities.

Variable lower : string → string.

(** [list(set(names))]: the names without repetition, in the order the
    set happens to iterate. *)
Variable list_set : list string → list string.

Variable nominatim : world → string → response * Q.

(** [googlemaps.Client(key=gmaps_key).geocode(name)] *)
Variable gmaps_geocode : string → string → res (list gcode).

(** [for name in only_names: gcodes = gmaps.geocode(name) ...] *)
Fixpoint gmaps_places (key : string) (only_names : list string)
    : res (list place_row) :=
  match only_names with
  | [] => mret []
  | name :: rest =>
      gcodes ← gmaps_geocode key name;
      let found :=
        match gcodes with
        | gcode :: _ =>
            [PlaceRow name (formatted_address gcode)
                      (MkPoint (lng gcode) (lat gcode))]
        | [] => []
        end in
      places ← gmaps_places key rest;
      mret (found ++ places)
  end.

(** The function from the sheet as sliced, cleaned of NaN rows and with
    its columns named ([uni_counts] at line 91) to the returned table. *)
Definition get_universities (uni_counts : list counts_row)
    (use_gmaps : bool) (gmaps_key : option string) : M (list university_row) :=
  table ← lift (walk lower uni_counts);
  let uni_counts := drop_indicators table in
  let only_names :=
    list_set (filter (λ n, n ≠ "") (full_name <$> uni_counts)) in
  let cz := "Czech Republic" in
  geoplaces ← get_locations nominatim [cz] false;
  default_point ← lift (subscript geoplaces cz);
  places ←
    match use_gmaps, gmaps_key with
    | true, Some key => lift (gmaps_places key only_names)
    | _, _ =>
        pre_places ← get_locations nominatim only_names true;
        mret (place_of_item default_point <$> map_to_list pre_places)
    end;
  mret (merge_left uni_counts places).

End Universities.

(** ** [merge_locations] *)

Module School.
(** A row of [bigtable]: the columns scraped from the registry and the
    composite [address]. *)
Record row : Type := Row {
  record : list (option string);
  address : string
}.

(** A row of the table [merge_locations] returns. *)
Record located : Type := Located {
  school : row;
  geometry : Point
}.
End School.

(** [Series.unique()]: first occurrences, in order of appearance. *)
Fixpoint unique_from (seen : list string) (l : list string) : list string :=
  match l with
  | [] => []
  | x :: l' =>
      if bool_decide (x ∈ seen) then unique_from seen l'
      else x :: unique_from (x :: seen) l'
  end.

Definition unique (l : list string) : list string := unique_from [] l.

(** [bigtable.merge(geoseries, on='address')], an inner merge. *)
Definition merge_inner (bigtable : list School.row)
    (geoseries : list (string * Point)) : list School.located :=
  bigtable ≫= λ l,
    (λ g, School.Located l g.2) <$> filter (λ g, g.1 = School.address l) geoseries.

Section MergeLocations.

Variable nominatim : world → string → response * Q.

Definition merge_locations (bigtable : list School.row) : M (list School.located) :=
  let addresses := unique (School.address <$> bigtable) in
  geoplaces ← get_locations nominatim addresses false;
  let geoseries := map_to_list geoplaces in
  mret (merge_inner bigtable geoseries).

End MergeLocations.

(** ** [parse_table_details] *)

(** A cell is NaN ([None]) or holds text. *)
Definition cell : Type := option string.

(** A pandas table: the column labels and the rows, each with its index
    label. [pd.read_html] labels the rows 0, 1, 2, ... *)
Record data_frame : Type := DataFrame {
  columns : list cell;
  rows : list (nat * list cell)
}.

(** [pd.DataFrame()] *)
Definition empty_frame : data_frame := DataFrame [] [].

Definition is_nan (c : cell) : bool :=
  match c with None => true | Some _ => false end.

(** [table.dropna(how='all')]: rows with every cell NaN go. *)
Definition dropna_all (table : data_frame) : data_frame :=
  DataFrame (columns table) (filter (λ r, forallb is_nan r.2 = false) (rows table)).

(** [l[i]] for [0 <= i]. *)
Definition item {A} (l : list A) (i : nat) : res A :=
  match l !! i with
  | Some a => Ok a
  | None => Raise IndexError
  end.

(** [table.drop(label)]: every row with that index label goes. *)
Definition drop_label (label : nat) (table : data_frame) : data_frame :=
  DataFrame (columns table) (filter (λ r, r.1 ≠ label) (rows table)).

(** [try: body except ValueError: handler] *)
Definition try_except_ValueError {A} (body : res A) (handler : res A) : res A :=
  match body with
  | Raise ValueError => handler
  | r => r
  end.

Section ParseTableDetails.

(** [pd.read_html]: the tables of a page, or the exception it raises
    ([ValueError] when it finds no table). *)
Variable read_html : string → res (list data_frame).

(** The browser is read through [browser.page_source] only. *)
Definition parse_table_details (page_source : string) : res data_frame :=
  try_except_ValueError
    (raw_tables ← read_html page_source;
     let tabnum := if bool_decide (length raw_tables = 3%nat) then 2%nat else 3%nat in
     raw ← item raw_tables tabnum;
     let table := dropna_all raw in
     header ← item (rows table) 0;
     let table := DataFrame header.2 (rows table) in
     label ← item (fst <$> rows table) 0;
     mret (drop_label label table))
    (mret empty_frame).

End ParseTableDetails.

(** ** [get_chunks] *)

(** [divmod(a, b)] on integers: floor division, as [Z.div] and [Z.modulo]. *)
Definition divmod (a b : Z) : res (Z * Z) :=
  if bool_decide (b = 0) then Raise ZeroDivisionError
  else Ok (a `div` b, a `mod` b).

(** [values[start:stop]]: a negative bound counts from the end, and bounds
    are clamped to the list. *)
Definition slice {A} (values : list A) (start stop : Z) : list A :=
  let len := Z.of_nat (length values) in
  let clamp i := if bool_decide (i < 0) then Z.max 0 (i + len) else Z.min i len in
  let lo := clamp start in
  let hi := clamp stop in
  take (Z.to_nat (hi - lo)) (drop (Z.to_nat lo) values).

(** [range(n)] *)
Definition range (n : Z) : list Z := Z.of_nat <$> seq 0 (Z.to_nat n).

(** Each element of the tuple is a one-element list holding a chunk: the
    argument list of one [get_schools] call under [pool.starmap]. *)
Definition get_chunks {A} (values : list A) (n : Z) : res (list (list (list A))) :=
  '(k, m) ← divmod (Z.of_nat (length values)) n;
  mret ((λ i, [slice values (i * k + Z.min i m) ((i + 1) * k + Z.min (i + 1) m)])
          <$> range n).

(** The chunks themselves, in order. *)
Definition chunks_of {A} (args : list (list (list A))) : list (list A) :=
  concat args.

(** ** Inputs of the examples *)

Module Example.

(** Rows as the sheet has them, in ASCII. *)
Definition total : counts_row := CountsRow "00000" "Vysoke skoly celkem" [100].
Definition public : counts_row := CountsRow "10000" "Verejne vysoke skoly" [90].
Definition uk : counts_row := CountsRow "11000" "Univerzita Karlova" [50].
Definition ktf : counts_row :=
  CountsRow "11110" "Katolicka teologicka fakulta" [5].
Definition rektorat : counts_row := CountsRow "11900" "Rektorat" [1].
Definition cvut : counts_row := CountsRow "21000" "Ceske vysoke uceni technicke" [40].
Definition fsv : counts_row := CountsRow "21110" "FAKULTA stavebni" [7].
Definition boundary : counts_row := CountsRow "60000" "Soukrome vysoke skoly" [10].
Definition sting : counts_row := CountsRow "6B000" "Akademie STING" [3].

Definition sheet : list counts_row :=
  [total; public; uk; ktf; rektorat; cvut; fsv; boundary; sting].

(** The table the walk makes of [sheet]. *)
Definition walked_ktf : uni_row :=
  UniRow ktf Faculty (Some "Katolicka teologicka fakulta")
         (Some "Univerzita Karlova") None 0
         "Univerzita Karlova, Katolicka teologicka fakulta".

Definition walked : list uni_row :=
  [ UniRow total Indicator None None None 0 "Vysoke skoly celkem";
    UniRow public Indicator None None None 0 "Verejne vysoke skoly";
    UniRow uk University None (Some "Univerzita Karlova") None 0
           "Univerzita Karlova";
    walked_ktf;
    UniRow rektorat Other None (Some "Univerzita Karlova") (Some "Rektorat") 0
           "Rektorat";
    UniRow cvut University None (Some "Ceske vysoke uceni technicke") None 0
           "Ceske vysoke uceni technicke";
    UniRow fsv Faculty (Some "FAKULTA stavebni")
           (Some "Ceske vysoke uceni technicke") None 0
           "Ceske vysoke uceni technicke, FAKULTA stavebni";
    UniRow boundary Indicator None None None 1 "Soukrome vysoke skoly";
    UniRow sting University None (Some "Akademie STING") None 1
           "Akademie STING" ].

(** A sheet that opens with a faculty row. *)
Definition orphan_sheet : list counts_row := [ktf; uk].

Definition walked_orphan : list uni_row :=
  [ UniRow ktf Faculty None None None 0 "Katolicka teologicka fakulta";
    UniRow uk University None (Some "Univerzita Karlova") None 0
           "Univerzita Karlova" ].

(** Answers of the geocoding service. *)
Import PrimFloat.

Definition czechia : Location.t :=
  Location.Make "Cesko" 49.75%float 15.5%float.
Definition prague : Location.t :=
  Location.Make "Praha, Cesko" 50.125%float 14.5%float.

(** The world before the program sends anything. *)
Definition start : world := World 0 [].

(** A service that answers by the query alone: the country and one
    address are found, the name of the university runs into an error
    after a second, and nothing else is found. *)
Definition directory : world → string → response * Q := λ _ addr,
  if bool_decide (addr = "Czech Republic") then (Answered (Some czechia), 2 # 10)
  else if bool_decide (addr = "Praha, Ovocny trh 560/5") then
    (Answered (Some prague), 3 # 10)
  else if bool_decide (addr = "Univerzita Karlova") then (Failed, 1%Q)
  else (Answered None, 1 # 10).

(** A service whose first call ends in an error after a tenth of a
    second, and that finds Prague from then on. *)
Definition flaky : world → string → response * Q := λ w _,
  match sent w with
  | [] => (Failed, 1 # 10)
  | _ => (Answered (Some prague), 1 # 10)
  end.

(** No Google Maps client. *)
Definition no_gmaps : string → string → res (list gcode) := λ _ _, Ok [].

(** The table [get_universities] returns for the sheet of a university
    and its rectorate, with [directory] as the service. *)
Definition universities : list university_row :=
  [ UniversityRow
      (UniRow uk University None (Some "Univerzita Karlova") None 0
              "Univerzita Karlova")
      None None;
    UniversityRow
      (UniRow rektorat Other None (Some "Univerzita Karlova")
              (Some "Rektorat") 0 "Rektorat")
      (Some "") (Some (to_point czechia)) ].

(** Tables of a detail page: a layout table, and the table of the
    institution with an empty row above its header row and one below its
    data. *)
Definition layout : data_frame :=
  DataFrame [Some "0"] [(0%nat, [Some "menu"])].
Definition detail : data_frame :=
  DataFrame [Some "0"; Some "1"]
    [ (0%nat, [None; None]);
      (1%nat, [Some "Id. zarizeni"; Some "Typ"]);
      (2%nat, [Some "600001"; Some "Gymnazium"]);
      (3%nat, [None; None]) ].
Definition four_tables : list data_frame := [layout; layout; layout; detail].

(** [pd.read_html] on three pages: one with four tables, one with two,
    and one with none. *)
Definition read_html (page_source : string) : res (list data_frame) :=
  if bool_decide (page_source = "four") then Ok four_tables
  else if bool_decide (page_source = "two") then Ok [layout; layout]
  else Raise ValueError.

(** Schools, one at an address the directory finds and one not. *)
Definition found_school : School.row :=
  School.Row [Some "600001"; Some "Gymnazium"] "Praha, Ovocny trh 560/5".
Definition lost_school : School.row :=
  School.Row [Some "600002"; Some "Zakladni skola"] "Horni Dolni, 1".

End Example.

(** ** [get_entries] and the plan of the scraping *)

(** [list(itertools.product(xs, ys))] *)
Definition product {A B} (xs : list A) (ys : list B) : list (A * B) :=
  xs ≫= λ x, pair x <$> ys.

Section Entries.

(** [get_browser], [browser.get(URL)] and the switch to the frame
    [mainFrame]: done, or the exception one of them raises. *)
Variable open_form : res ().

(** The texts of the [option] elements under the element of the given
    name, or the exception [find_element] raises. *)
Variable option_texts : string → res (list string).

(** [[el.text for el in ... if el.text != '']] *)
Definition nonempty_texts (name : string) : res (list string) :=
  match option_texts name with
  | Ok texts => Ok (filter (λ text, text ≠ "") texts)
  | Raise e => Raise e
  end.

(** The regions are read first, then the school types. *)
Definition get_entries : res (list (string * string)) :=
  match open_form with
  | Raise e => Raise e
  | Ok _ =>
      match nonempty_texts "ctl39" with
      | Raise e => Raise e
      | Ok regions =>
          match nonempty_texts "ctl38" with
          | Raise e => Raise e
          | Ok school_types => Ok (product school_types regions)
          end
      end
  end.

(** [random.shuffle(entries)]: some rearrangement of the list. *)
Variable shuffle : list (string * string) → list (string * string).

(** The lines of [main] from [get_entries()] to [get_chunks(..)]: the
    argument lists of the [get_schools] calls. *)
Definition scraping_plan (processes : Z)
    : res (list (list (list (string * string)))) :=
  match get_entries with
  | Raise e => Raise e
  | Ok entries => get_chunks (shuffle entries) processes
  end.

End Entries.

(** ** [glue_address] and the address column of [get_schools] *)

(** The columns of a row of [bigtable] that [glue_address] reads:
    'Obec', 'Ulice', 'Č.p.' and 'Č.o.'. *)
Record address_parts : Type := AddressParts {
  Obec : cell;
  Ulice : cell;
  Cp : cell;
  Co : cell
}.

(** A NaN city is a float, and adding a string to it is a [TypeError]. *)
Definition glue_address (row : address_parts) : res string :=
  match Obec row with
  | None => Raise TypeError
  | Some obec =>
      let addr := obec +:+ "," in
      let addr := addr +:+ match Ulice row with None => "" | Some ulice => " " +:+ ulice end in
      let addr := addr +:+ match Cp row with None => "" | Some cp => " " +:+ cp end in
      let addr := addr +:+ match Co row with None => "" | Some co => "/" +:+ co end in
      Ok addr
  end.

(** [s] without the prefix [p], if [s] starts with [p]. *)
Fixpoint strip_prefix (p s : string) : option string :=
  match p, s with
  | EmptyString, _ => Some s
  | String a p', String b s' => if Ascii.eqb a b then strip_prefix p' s' else None
  | String _ _, EmptyString => None
  end.

Section Districts.

(** The pattern [\d]: the text after the first character of a text, if
    that character is a decimal digit (of any script). *)
Variable decimal_digit : string → option string.

(** The text after the decimal digits at its front (greedy [\d*]), looking
    at [fuel] characters at most. *)
Fixpoint skip_digits (fuel : nat) (s : string) : string :=
  match fuel with
  | O => s
  | S fuel =>
      match decimal_digit s with
      | Some rest => skip_digits fuel rest
      | None => s
      end
  end.

(** [re.sub(r'Praha \d+', 'Praha', s)], from the left and without
    overlap, trying [fuel] positions at most. *)
Fixpoint sub_districts (fuel : nat) (s : string) : string :=
  match fuel with
  | O => s
  | S fuel =>
      match strip_prefix "Praha " s ≫= decimal_digit with
      | Some rest =>
          "Praha" +:+ sub_districts fuel (skip_digits (String.length rest) rest)
      | None =>
          match s with
          | EmptyString => EmptyString
          | String c s' => String c (sub_districts fuel s')
          end
      end
  end.

(** [Series.replace(to_replace=r'Praha \d+', value='Praha', regex=True)]
    on one address; a text has no more positions than characters. *)
Definition replace_districts (address : string) : string :=
  sub_districts (String.length address) address.

(** [bigtable.apply(glue_address, axis=1)] *)
Fixpoint glue_addresses (bigtable : list address_parts) : res (list string) :=
  match bigtable with
  | [] => mret []
  | row :: rest =>
      addr ← glue_address row;
      addrs ← glue_addresses rest;
      mret (addr :: addrs)
  end.

(** The column [address] as [get_schools] leaves it. *)
Definition address_column (bigtable : list address_parts) : res (list string) :=
  match glue_addresses bigtable with
  | Ok addrs => Ok (replace_districts <$> addrs)
  | Raise e => Raise e
  end.

End Districts.

(** The pattern [\d] on ASCII text: the digits 0-9. *)
Definition ascii_decimal_digit (s : string) : option string :=
  match s with
  | String a rest =>
      let n := nat_of_ascii a in
      if ((48 <=? n)%nat && (n <=? 57)%nat)%bool then Some rest else None
  | EmptyString => None
  end.

(** ** Further inputs of the examples *)

Module Sample.

(** A Google Maps client that knows the university and nothing else. *)
Definition gmaps : string → string → res (list gcode) := λ _ name,
  if bool_decide (name = "Univerzita Karlova") then
    Ok [GCode "Ovocny trh 560/5, Praha" PrimFloat.one PrimFloat.two]
  else Ok [].

(** The table [get_universities] returns with this client. *)
Definition paid : list university_row :=
  [ UniversityRow
      (UniRow Example.uk University None (Some "Univerzita Karlova") None 0
              "Univerzita Karlova")
      (Some "Ovocny trh 560/5, Praha")
      (Some (MkPoint PrimFloat.one PrimFloat.two));
    UniversityRow
      (UniRow Example.rektorat Other None (Some "Univerzita Karlova")
              (Some "Rektorat") 0 "Rektorat")
      None None ].

(** The options of the two fields of the form. *)
Definition option_texts (name : string) : res (list string) :=
  if bool_decide (name = "ctl39") then Ok [""; "Praha"; "Brno"]
  else if bool_decide (name = "ctl38") then Ok [""; "A00"; "B00"; "C00"]
  else Raise OtherException.

(** A school in a district of Prague. *)
Definition district_school : address_parts :=
  AddressParts (Some "Praha 5") (Some "Ovocny trh") (Some "560") (Some "5").

End Sample.

(** * Properties *)

(** ** String operations *)

Section PyStrFacts.

Import PyStr.

Lemma ascii_eqb_true (a b : ascii) : Ascii.eqb a b = true ↔ a = b.
Proof. apply Ascii.eqb_eq. Qed.

Lemma startswith_iff (p s : string) :
  startswith p s = true ↔ ∃ q, s = p +:+ q.
Proof.
  revert s. induction p as [|a p IH]; intros s; simpl.
  - split; [intros _; by exists s | done].
  - destruct s as [|b s].
    + split; [done | intros [q Hq]; discriminate Hq].
    + destruct (Ascii.eqb a b) eqn:Hab.
      * apply ascii_eqb_true in Hab as ->. rewrite IH.
        split; intros [q Hq]; exists q; [by rewrite Hq | by injection Hq].
      * split; [done | intros [q Hq]]. injection Hq as -> _.
        by rewrite Ascii.eqb_refl in Hab.
Qed.

Lemma contains_iff (needle s : string) :
  contains needle s = true ↔ ∃ p q, s = p +:+ needle +:+ q.
Proof.
  induction s as [|b s IH]; simpl; rewrite orb_true_iff, startswith_iff.
  - split.
    + intros [[q Hq] | ?]; [by exists "", q | done].
    + intros (p & q & Hpq). left. destruct p; [by exists q | discriminate Hpq].
  - rewrite IH. split.
    + intros [[q Hq] | (p & q & Hpq)]; [by exists "", q |].
      exists (String b p), q. by rewrite Hpq.
    + intros (p & q & Hpq). destruct p as [|c p]; [left; by exists q | right].
      injection Hpq as _ ->. by exists p, q.
Qed.

Lemma endswith_iff (s suffix : string) :
  endswith s suffix = true ↔ ∃ p, s = p +:+ suffix.
Proof.
  induction s as [|b s IH]; cbn [endswith]; rewrite orb_true_iff, String.eqb_eq.
  - split.
    + intros [-> | ?]; [by exists "" | done].
    + intros [p Hp]. left. destruct p; [done | discriminate Hp].
  - rewrite IH. split.
    + intros [-> | [p ->]]; [by exists "" | by exists (String b p)].
    + intros [p Hp]. destruct p as [|c p]; [by left | right].
      injection Hp as _ ->. by exists p.
Qed.

Lemma in_list_iff (s : string) (l : list string) :
  in_list s l = true ↔ s ∈ l.
Proof.
  unfold in_list. rewrite existsb_exists, list_elem_of_In. split.
  - intros (x & Hx & Heq). by apply String.eqb_eq in Heq as ->.
  - intros Hs. exists s. by rewrite String.eqb_refl.
Qed.

End PyStrFacts.

(** ** Classification of the rows *)

Section ClassificationFacts.

Variable lower : string → string.

(** The code ends in three zeros. *)
Definition university_level (r : counts_row) : Prop :=
  ∃ p, code r = p +:+ "000".

(** The code is one of the three summary codes. *)
Definition reserved (r : counts_row) : Prop :=
  code r ∈ ["60000"; "00000"; "10000"].

(** The lowered name contains the faculty marker or its misspelling. *)
Definition faculty_marker (r : counts_row) : Prop :=
  (∃ p q, lower (name r) = p +:+ "fakulta" +:+ q) ∨
  (∃ p q, lower (name r) = p +:+ "falulta" +:+ q).

Lemma reserved_university_level (r : counts_row) :
  reserved r → university_level r.
Proof.
  unfold reserved, university_level. rewrite !elem_of_cons, elem_of_nil.
  intros [-> | [-> | [-> | []]]]; by eexists (String _ (String _ "")).
Qed.

Lemma get_university_type_cases (r : counts_row) :
  (reserved r ∧ get_university_type lower r = Indicator) ∨
  (university_level r ∧ ¬ reserved r ∧ get_university_type lower r = University) ∨
  (¬ university_level r ∧ faculty_marker r ∧ get_university_type lower r = Faculty) ∨
  (¬ university_level r ∧ ¬ faculty_marker r ∧ get_university_type lower r = Other).
Proof.
  unfold get_university_type, university_level, reserved, faculty_marker.
  destruct (PyStr.endswith (code r) "000") eqn:Hend.
  - apply endswith_iff in Hend.
    destruct (PyStr.in_list (code r) _) eqn:Hin.
    + left. by apply in_list_iff in Hin.
    + right; left. split_and!; [done | | done].
      rewrite <-in_list_iff. by rewrite Hin.
  - assert (¬ ∃ p, code r = p +:+ "000") as Hno.
    { rewrite <-endswith_iff. by rewrite Hend. }
    right; right.
    destruct (PyStr.contains "fakulta" _ || PyStr.contains "falulta" _) eqn:Hm.
    + left. split_and!; [done | | done].
      apply orb_true_iff in Hm. by rewrite <-!contains_iff.
    + right. split_and!; [done | | done].
      apply orb_false_iff in Hm as [H1 H2].
      rewrite <-!contains_iff. rewrite H1, H2. by intros [? | ?].
Qed.

(** C2. The derived type is one of indicator, university, faculty and
    other, and is a function of the code and the name alone: rows with the
    same code and name get the same type; the type is indicator exactly for
    the three reserved codes, university exactly for the other codes that
    end in 000, faculty exactly when the code does not end in 000 and the
    lowered name contains fakulta or falulta, and other exactly in the
    remaining case. *)
Theorem get_university_type_classifies :
  (∀ r r' : counts_row,
     code r = code r' → name r = name r' →
     get_university_type lower r = get_university_type lower r') ∧
  (∀ r : counts_row,
     type_name (get_university_type lower r)
       ∈ ["indicator"; "university"; "faculty"; "other"] ∧
     (get_university_type lower r = Indicator ↔ reserved r) ∧
     (get_university_type lower r = University ↔
        university_level r ∧ ¬ reserved r) ∧
     (get_university_type lower r = Faculty ↔
        ¬ university_level r ∧ faculty_marker r) ∧
     (get_university_type lower r = Other ↔
        ¬ university_level r ∧ ¬ faculty_marker r)).
Proof.
  split.
  - intros r r' Hc Hn. unfold get_university_type. by rewrite Hc, Hn.
  - intros r. pose proof (reserved_university_level r) as Hres.
    split.
    { destruct (get_university_type lower r); simpl;
        rewrite !elem_of_cons; tauto. }
    destruct (get_university_type_cases r)
      as [[? ->] | [(? & ? & ->) | [(? & ? & ->) | (? & ? & ->)]]];
      split_and!; split; try done; try tauto; intros; exfalso; tauto.
Qed.

End ClassificationFacts.

Lemma get_university_type_classifies_witness :
  get_university_type PyStr.ascii_lower Example.fsv
  = get_university_type PyStr.ascii_lower
      (CountsRow "21110" "FAKULTA stavebni" [8; 9]).
Proof.
  apply (proj1 (get_university_type_classifies PyStr.ascii_lower)); reflexivity.
Defined.

(** ** Chunking *)

Section ChunkFacts.

Context {A : Type}.

(** Within the list, a slice with ordered bounds is [take] after [drop]. *)
Lemma slice_take_drop (values : list A) (lo hi : Z) :
  0 ≤ lo ≤ hi → hi ≤ Z.of_nat (length values) →
  slice values lo hi = take (Z.to_nat (hi - lo)) (drop (Z.to_nat lo) values).
Proof.
  intros Hlo Hhi. unfold slice.
  rewrite !bool_decide_eq_false_2 by lia.
  by rewrite !Z.min_l by lia.
Qed.

Lemma concat_singletons {B} (f : B → list A) (l : list B) :
  concat ((λ x, [f x]) <$> l) = f <$> l.
Proof.
  induction l as [|x l IH]; [done|].
  rewrite !fmap_cons. simpl. f_equal. exact IH.
Qed.

(** The cut before chunk [i]. *)
Definition cut (k m i : Z) : Z := i * k + Z.min i m.

Lemma cut_step (k m i : Z) :
  0 ≤ k → 0 ≤ m → 0 ≤ i →
  cut k m (i + 1) = cut k m i + k + (if bool_decide (i < m) then 1 else 0).
Proof. unfold cut. intros. case_bool_decide; lia. Qed.

Lemma concat_slices_take (values : list A) (k m : Z) (j : nat) :
  0 ≤ k → 0 ≤ m →
  cut k m (Z.of_nat j) ≤ Z.of_nat (length values) →
  concat ((λ i, slice values (cut k m i) (cut k m (i + 1)))
            <$> (Z.of_nat <$> seq 0 j))
  = take (Z.to_nat (cut k m (Z.of_nat j))) values.
Proof.
  intros Hk Hm. induction j as [|j IH]; intros Hlen.
  - unfold cut. by rewrite Z.min_l by lia.
  - assert (Z.of_nat (S j) = Z.of_nat j + 1) as HS by lia.
    rewrite HS in Hlen |- *.
    pose proof (cut_step k m (Z.of_nat j) Hk Hm ltac:(lia)) as Hstep.
    assert (0 ≤ cut k m (Z.of_nat j)) by (unfold cut; lia).
    assert (cut k m (Z.of_nat j) ≤ cut k m (Z.of_nat j + 1))
      by (rewrite Hstep; case_bool_decide; lia).
    rewrite seq_S, !fmap_app, concat_app, IH by lia. simpl.
    rewrite app_nil_r, slice_take_drop by lia.
    rewrite take_take_drop. f_equal. lia.
Qed.

(** For a positive number of chunks, [get_chunks] returns [n] argument
    lists of one chunk each; chunk [i] is the slice between the cuts
    [i * k + min i m] and [(i+1) * k + min (i+1) m], has [k + 1] elements
    if [i < m] and [k] otherwise, and the chunks in order make up the
    list. *)
Lemma get_chunks_partition (values : list A) (n : Z) :
  0 < n →
  let k := Z.of_nat (length values) `div` n in
  let m := Z.of_nat (length values) `mod` n in
  ∃ args,
    get_chunks values n = Ok args ∧
    length args = Z.to_nat n ∧
    (∀ (i : nat) arg, args !! i = Some arg →
       ∃ chunk, arg = [chunk] ∧
         chunk = take (Z.to_nat (cut k m (Z.of_nat i + 1) - cut k m (Z.of_nat i)))
                      (drop (Z.to_nat (cut k m (Z.of_nat i))) values) ∧
         Z.of_nat (length chunk)
         = k + (if bool_decide (Z.of_nat i < m) then 1 else 0)) ∧
    concat (chunks_of args) = values.
Proof.
  intros Hn k m.
  pose proof (Z.div_mod (Z.of_nat (length values)) n ltac:(lia)) as Hdm.
  pose proof (Z.mod_pos_bound (Z.of_nat (length values)) n Hn) as Hm.
  assert (0 ≤ k) as Hk by (apply Z.div_pos; lia).
  fold k m in Hdm, Hm.
  assert (cut k m n = Z.of_nat (length values)) as Hcutn
    by (unfold cut; rewrite Z.min_r by lia; lia).
  assert (∀ i, 0 ≤ i < n →
            0 ≤ cut k m i ∧ cut k m i ≤ cut k m (i + 1) ∧
            cut k m (i + 1) ≤ Z.of_nat (length values)) as Hcuts.
  { intros i Hi. rewrite <-Hcutn. unfold cut. nia. }
  eexists. split; [|split_and!].
  - unfold get_chunks, divmod. rewrite bool_decide_eq_false_2 by lia.
    simpl. fold k m. reflexivity.
  - unfold range. by rewrite !length_fmap, length_seq.
  - intros i arg Hi. unfold range in Hi.
    rewrite !list_lookup_fmap in Hi.
    destruct (seq 0 (Z.to_nat n) !! i) as [i'|] eqn:Hseq; [|done].
    apply lookup_seq in Hseq as [-> Hlt]. simpl in Hi.
    injection Hi as <-. eexists; split; [reflexivity|].
    destruct (Hcuts (Z.of_nat i) ltac:(lia)) as (H0 & H1 & H2).
    fold (cut k m (Z.of_nat i)) (cut k m (Z.of_nat i + 1)).
    split; [by apply slice_take_drop|].
    rewrite slice_take_drop, length_take, length_drop by done.
    rewrite cut_step in * by lia. case_bool_decide; lia.
  - unfold chunks_of, range.
    trans (take (Z.to_nat (cut k m (Z.of_nat (Z.to_nat n)))) values).
    + rewrite <-concat_slices_take by (rewrite ?Z2Nat.id; lia).
      f_equal. apply concat_singletons.
    + rewrite Z2Nat.id, Hcutn, Nat2Z.id by lia. by apply take_ge.
Qed.

End ChunkFacts.

(** C3. On the list 1..10 with [n = 3], [get_chunks] returns three
    argument lists whose chunks have sizes 4, 3 and 3; the chunks are the
    slices [0:4], [4:7] and [7:10] of the input, and their concatenation
    in order is the input. *)
Theorem get_chunks_ten_by_three :
  let values := [1; 2; 3; 4; 5; 6; 7; 8; 9; 10] in
  ∃ args,
    get_chunks values 3 = Ok args ∧
    args = [[[1; 2; 3; 4]]; [[5; 6; 7]]; [[8; 9; 10]]] ∧
    length <$> chunks_of args = [4; 3; 3]%nat ∧
    chunks_of args
    = [take 4 values; take 3 (drop 4 values); take 3 (drop 7 values)] ∧
    concat (chunks_of args) = values.
Proof. eexists. split_and!; reflexivity. Qed.

(** ** The row walk *)

Lemma walk_row_Ok last_uni_row flag row ty last' flag' out :
  walk_row last_uni_row flag row ty = Ok (last', flag', out) →
  last' = (if bool_decide (ty = University) then Some row else last_uni_row) ∧
  flag' = (if String.eqb (code row) "60000" then true else flag) ∧
  base out = row ∧ type out = ty ∧
  private out = int_of_bool flag' ∧
  university out =
    match ty with
    | University => Some (name row)
    | Faculty | Other => name <$> last_uni_row
    | Indicator => None
    end ∧
  (ty = Other → is_Some last_uni_row).
Proof.
  unfold walk_row.
  destruct last_uni_row as [u|], ty; simpl; intros [= <- <- <-]; simpl;
    split_and!; try done; by eauto.
Qed.

Lemma walk_row_Raise last_uni_row private row ty e :
  walk_row last_uni_row private row ty = Raise e →
  e = TypeError ∧ ty = Other ∧ last_uni_row = None.
Proof.
  unfold walk_row. destruct last_uni_row as [u|], ty; simpl; by intros [=].
Qed.

Section WalkFacts.

Variable lower : string → string.

Local Abbreviation type_of := (get_university_type lower).

(** The loop variables after the rows [pre]. *)
Definition last_uni_after (last_uni_row : option counts_row)
    (pre : list counts_row) : option counts_row :=
  foldl (λ last row, if bool_decide (type_of row = University) then Some row else last)
        last_uni_row pre.

Definition private_after (private : bool) (pre : list counts_row) : bool :=
  foldl (λ private row, if String.eqb (code row) "60000" then true else private)
        private pre.

(** Row [i] of a finished walk comes from one turn of the loop, entered
    with the loop variables as the rows before [i] leave them. *)
Lemma walk_from_lookup rows : ∀ last_uni_row private table i out,
  walk_from lower last_uni_row private rows = Ok table →
  table !! i = Some out →
  ∃ row, rows !! i = Some row ∧
    walk_row (last_uni_after last_uni_row (take i rows))
             (private_after private (take i rows)) row (type_of row)
    = Ok (last_uni_after last_uni_row (take (S i) rows),
          private_after private (take (S i) rows), out).
Proof.
  induction rows as [|row rest IH]; intros last private table i out.
  - intros [= <-]. by rewrite lookup_nil.
  - cbn [walk_from].
    destruct (walk_row last private row (type_of row))
      as [[[last' private'] out0]|e] eqn:Hrow; [|done].
    cbn. destruct (walk_from lower last' private' rest) as [outs|] eqn:Hrest;
      [|done]. cbn. intros [= <-].
    apply walk_row_Ok in Hrow as Hst. destruct Hst as (Hl & Hp & _).
    destruct i as [|i]; cbn.
    + intros [= <-]. exists row. split; [done|].
      unfold last_uni_after, private_after. cbn. by rewrite <-Hl, <-Hp.
    + intros Hi. destruct (IH _ _ _ _ _ Hrest Hi) as (r & Hr & Hw).
      exists r. split; [done|].
      unfold last_uni_after, private_after in *. cbn.
      by rewrite <-Hl, <-Hp.
Qed.

Lemma walk_from_length rows : ∀ last_uni_row private table,
  walk_from lower last_uni_row private rows = Ok table →
  length table = length rows.
Proof.
  induction rows as [|row rest IH]; intros last private table.
  - by intros [= <-].
  - cbn [walk_from].
    destruct (walk_row last private row (type_of row))
      as [[[last' private'] out0]|e] eqn:Hrow; [|done].
    cbn. destruct (walk_from lower last' private' rest) as [outs|] eqn:Hrest;
      [|done]. cbn. intros [= <-]. cbn. f_equal. by eapply IH.
Qed.

(** The walk fails only with a [TypeError], at a row of type other that
    no university row precedes. *)
Lemma walk_from_Raise rows : ∀ last_uni_row private e,
  walk_from lower last_uni_row private rows = Raise e →
  e = TypeError ∧
  ∃ i row, rows !! i = Some row ∧ type_of row = Other ∧
    last_uni_after last_uni_row (take i rows) = None.
Proof.
  induction rows as [|row rest IH]; intros last private e; [done|].
  cbn [walk_from].
  destruct (walk_row last private row (type_of row))
    as [[[last' private'] out0]|e'] eqn:Hrow; cbn.
  - apply walk_row_Ok in Hrow as (Hl & _).
    destruct (walk_from lower last' private' rest) as [outs|e'] eqn:Hrest;
      [done|]. cbn. intros [= <-].
    destruct (IH _ _ _ Hrest) as (-> & i & r & Hr & Hty & Hnone).
    split; [done|]. exists (S i), r. split_and!; [done..|].
    unfold last_uni_after in *. cbn. by rewrite <-Hl.
  - intros [= <-]. apply walk_row_Raise in Hrow as (-> & Hty & ->).
    split; [done|]. by exists 0%nat, row.
Qed.


(** Row [j] is the nearest row of type university before row [i]. *)
Definition nearest_university_before (rows : list counts_row) (i : nat)
    (u : counts_row) : Prop :=
  ∃ j, (j < i)%nat ∧ rows !! j = Some u ∧ type_of u = University ∧
    ∀ k x, (j < k < i)%nat → rows !! k = Some x → type_of x ≠ University.

(** Some row of type university comes before row [i]. *)
Definition university_before (rows : list counts_row) (i : nat) : Prop :=
  ∃ j u, (j < i)%nat ∧ rows !! j = Some u ∧ type_of u = University.

Lemma last_uni_after_snoc last pre row :
  last_uni_after last (pre ++ [row])
  = if bool_decide (type_of row = University) then Some row
    else last_uni_after last pre.
Proof. unfold last_uni_after. by rewrite foldl_snoc. Qed.

Lemma last_uni_after_None rows i :
  last_uni_after None (take i rows) = None ↔ ¬ university_before rows i.
Proof.
  induction i as [|i IH].
  - rewrite take_0. split; [|done]. intros _ (j & u & Hj & _). lia.
  - destruct (rows !! i) as [x|] eqn:Hx.
    + rewrite (take_S_r _ _ _ Hx), last_uni_after_snoc.
      case_bool_decide as Hty.
      * split; [done|]. intros []. exists i, x. split_and!; [lia|done..].
      * rewrite IH. split; intros Hno (j & u & Hj & Hu & Hun); apply Hno.
        -- destruct (decide (j = i)) as [->|]; [congruence|].
           exists j, u. split_and!; [lia|done..].
        -- exists j, u. split_and!; [lia|done..].
    + apply lookup_ge_None in Hx.
      rewrite take_ge by lia. rewrite take_ge in IH by lia. rewrite IH.
      split; intros Hno (j & u & Hj & Hu & Hun); apply Hno.
      * exists j, u. split_and!; [|done..].
        apply lookup_lt_Some in Hu. lia.
      * exists j, u. split_and!; [lia|done..].
Qed.

Lemma last_uni_after_Some rows i u :
  last_uni_after None (take i rows) = Some u ↔ nearest_university_before rows i u.
Proof.
  revert u. induction i as [|i IH]; intros u.
  - rewrite take_0. split; [done|]. intros (j & Hj & _). lia.
  - destruct (rows !! i) as [x|] eqn:Hx.
    + rewrite (take_S_r _ _ _ Hx), last_uni_after_snoc.
      case_bool_decide as Hty.
      * split.
        -- intros [= <-]. exists i. split_and!; [lia|done..|]. intros; lia.
        -- intros (j & Hj & Hu & Hun & Hbetween).
           destruct (decide (j = i)) as [->|]; [congruence|].
           destruct (Hbetween i x); [lia|done..].
      * rewrite IH. split; intros (j & Hj & Hu & Hun & Hbetween).
        -- exists j. split_and!; [lia|done..|]. intros k y Hk Hy.
           destruct (decide (k = i)) as [->|]; [congruence|].
           apply (Hbetween k y); [lia|done].
        -- destruct (decide (j = i)) as [->|]; [congruence|].
           exists j. split_and!; [lia|done..|]. intros k y Hk.
           apply Hbetween. lia.
    + apply lookup_ge_None in Hx.
      rewrite take_ge by lia. rewrite take_ge in IH by lia. rewrite IH.
      split; intros (j & Hj & Hu & Hun & Hbetween).
      * exists j. split_and!; [lia|done..|]. intros k y Hk Hy.
        apply lookup_lt_Some in Hy as Hlt. apply (Hbetween k y); [lia|done].
      * exists j. split_and!; [|done..|].
        -- apply lookup_lt_Some in Hu. lia.
        -- intros k y Hk Hy. apply lookup_lt_Some in Hy as Hlt.
           apply (Hbetween k y); [lia|done].
Qed.

Lemma nearest_university_exists rows i :
  university_before rows i → ∃ u, nearest_university_before rows i u.
Proof.
  intros Hbefore.
  destruct (last_uni_after None (take i rows)) as [u|] eqn:Hlast.
  - exists u. by apply last_uni_after_Some.
  - by apply last_uni_after_None in Hlast.
Qed.

Lemma private_after_snoc private pre row :
  private_after private (pre ++ [row])
  = if String.eqb (code row) "60000" then true else private_after private pre.
Proof. unfold private_after. by rewrite foldl_snoc. Qed.

(** The code 60000 occurs at row [i] or before. *)
Definition boundary_reached (rows : list counts_row) (i : nat) : Prop :=
  ∃ j row, (j ≤ i)%nat ∧ rows !! j = Some row ∧ code row = "60000".

Lemma private_after_true rows i :
  private_after false (take i rows) = true ↔
  ∃ j row, (j < i)%nat ∧ rows !! j = Some row ∧ code row = "60000".
Proof.
  induction i as [|i IH].
  - rewrite take_0. split; [done|]. intros (j & r & Hj & _). lia.
  - destruct (rows !! i) as [x|] eqn:Hx.
    + rewrite (take_S_r _ _ _ Hx), private_after_snoc.
      destruct (String.eqb (code x) "60000") eqn:Hc.
      * apply String.eqb_eq in Hc. split; [|done]. intros _.
        exists i, x. split_and!; [lia|done..].
      * apply String.eqb_neq in Hc. rewrite IH.
        split; intros (j & r & Hj & Hr & Hcode).
        -- exists j, r. split_and!; [lia|done..].
        -- destruct (decide (j = i)) as [->|]; [congruence|].
           exists j, r. split_and!; [lia|done..].
    + apply lookup_ge_None in Hx.
      rewrite take_ge by lia. rewrite take_ge in IH by lia. rewrite IH.
      split; intros (j & r & Hj & Hr & Hcode); exists j, r;
        split_and!; try done; try lia.
      apply lookup_lt_Some in Hr. lia.
Qed.

(** Whether the boundary was reached by row [i] is decidable. *)
Lemma classic_boundary rows i : boundary_reached rows i ∨ ¬ boundary_reached rows i.
Proof.
  destruct (private_after false (take (S i) rows)) eqn:Hafter.
  - left. apply private_after_true in Hafter as (j & row & ? & ? & ?).
    exists j, row. split_and!; [lia|done..].
  - right. intros (j & row & ? & ? & ?).
    assert (private_after false (take (S i) rows) = true) as Htrue.
    { apply private_after_true. exists j, row. split_and!; [lia|done..]. }
    congruence.
Qed.

End WalkFacts.

Section WalkClaims.

Variable lower : string → string.

Local Abbreviation type_of := (get_university_type lower).

(** What the walk leaves in row [i]: the row of the sheet with its type,
    the flag as the rows up to [i] set it, and the link to the university
    row the rows before [i] leave in [last_uni_row]. *)
Lemma walk_lookup rows table i out :
  walk lower rows = Ok table → table !! i = Some out →
  rows !! i = Some (base out) ∧ type out = type_of (base out) ∧
  private out = int_of_bool (private_after false (take (S i) rows)) ∧
  university out =
    match type out with
    | University => Some (name (base out))
    | Faculty | Other => name <$> last_uni_after lower None (take i rows)
    | Indicator => None
    end ∧
  (type out = Other → is_Some (last_uni_after lower None (take i rows))).
Proof.
  intros Hwalk Hi.
  destruct (walk_from_lookup lower _ _ _ _ _ _ Hwalk Hi) as (row & Hrow & Hturn).
  apply walk_row_Ok in Hturn as (_ & _ & Hbase & Hty & Hpriv & Huni & Hother).
  subst row. rewrite Hty. by split_and!.
Qed.

(** Every row of type faculty or other is linked to the nearest row of
    type university before it. *)
Definition members_linked (rows : list counts_row) (table : list uni_row) : Prop :=
  ∀ i out, table !! i = Some out → type out ∈ [Faculty; Other] →
    ∃ u, nearest_university_before lower rows i u ∧
         university out = Some (name u).

(** C1, amended. When the walk finishes, row [i] of the table is row [i]
    of the sheet with its derived type; if its type is faculty or other
    and some row of type university comes before it, its [university] is
    the name of the nearest such row; a row of type faculty or other with
    no row of type university before it is a faculty row and its
    [university] stays null. *)
Theorem walk_links_members rows table i out :
  walk lower rows = Ok table →
  table !! i = Some out →
  type out ∈ [Faculty; Other] →
  rows !! i = Some (base out) ∧ type out = type_of (base out) ∧
  (university_before lower rows i →
     ∃ u, nearest_university_before lower rows i u ∧
          university out = Some (name u)) ∧
  (¬ university_before lower rows i →
     type out = Faculty ∧ university out = None).
Proof.
  intros Hwalk Hi Hty.
  destruct (walk_lookup _ _ _ _ Hwalk Hi) as (Hrow & Htype & _ & Huni & Hother).
  split_and!; [done..| |].
  - intros Hbefore.
    destruct (nearest_university_exists lower _ _ Hbefore) as [u Hu].
    exists u. split; [done|]. apply last_uni_after_Some in Hu.
    rewrite Hu in Huni. rewrite !elem_of_cons, elem_of_nil in Hty.
    by destruct Hty as [Heq | [Heq | []]]; rewrite Heq in Huni.
  - intros Hnone. apply last_uni_after_None in Hnone.
    rewrite Hnone in Huni, Hother. rewrite !elem_of_cons, elem_of_nil in Hty.
    destruct Hty as [Heq | [Heq | []]]; rewrite Heq in Huni; [done|].
    by destruct (Hother Heq).
Qed.


Lemma walk_raises rows e :
  walk lower rows = Raise e →
  e = TypeError ∧
  ∃ i row, rows !! i = Some row ∧ type_of row = Other ∧
    ¬ university_before lower rows i.
Proof.
  intros Hwalk. apply walk_from_Raise in Hwalk as (-> & i & row & ? & ? & Hnone).
  split; [done|]. exists i, row. split_and!; [done..|].
  by apply last_uni_after_None.
Qed.

(** C6. In the table of a finished walk the flag [private] of a row is 1
    if the code 60000 occurs at that row or before it and 0 otherwise; so
    it never decreases down the rows, and with the first 60000 at row [b]
    it is 0 on the rows before [b] and 1 from [b] on. *)
Theorem private_flag_monotone rows table :
  walk lower rows = Ok table →
  (∀ i out, table !! i = Some out →
     (boundary_reached rows i → private out = 1) ∧
     (¬ boundary_reached rows i → private out = 0)) ∧
  (∀ i j out out', (i ≤ j)%nat →
     table !! i = Some out → table !! j = Some out' →
     private out ≤ private out') ∧
  (∀ pre b post,
     rows = pre ++ b :: post → code b = "60000" →
     (∀ row, row ∈ pre → code row ≠ "60000") →
     private <$> table
     = replicate (length pre) 0 ++ replicate (S (length post)) 1).
Proof.
  intros Hwalk.
  assert (∀ i out, table !! i = Some out →
            (boundary_reached rows i → private out = 1) ∧
            (¬ boundary_reached rows i → private out = 0)) as Hflag.
  { intros i out Hi.
    destruct (walk_lookup _ _ _ _ Hwalk Hi) as (_ & _ & Hpriv & _).
    rewrite Hpriv.
    destruct (private_after false (take (S i) rows)) eqn:Hafter.
    - split; [done|]. intros []. apply private_after_true in Hafter
        as (j & row & ? & ? & ?). exists j, row. split_and!; [lia|done..].
    - split; [|done]. intros (j & row & ? & ? & ?).
      assert (private_after false (take (S i) rows) = true) as Htrue.
      { apply private_after_true. exists j, row. split_and!; [lia|done..]. }
      congruence. }
  split_and!; [done| |].
  - intros i j out out' Hij Hi Hj.
    destruct (Hflag _ _ Hi) as [Hi1 Hi0], (Hflag _ _ Hj) as [Hj1 Hj0].
    destruct (decide (private out' = 1)) as [->|Hne].
    + destruct (classic_boundary rows i) as [Hb|Hb];
        [rewrite (Hi1 Hb)|rewrite (Hi0 Hb)]; lia.
    + assert (¬ boundary_reached rows j) as Hnj by (intros Hb; by apply Hne, Hj1).
      assert (¬ boundary_reached rows i) as Hni.
      { intros (k & row & ? & ? & ?). apply Hnj. exists k, row.
        split_and!; [lia|done..]. }
      rewrite (Hi0 Hni), (Hj0 Hnj). lia.
  - intros pre b post -> Hb Hpre.
    pose proof (walk_from_length lower _ _ _ _ Hwalk) as Hlen.
    rewrite length_app in Hlen. cbn in Hlen.
    apply list_eq. intros i. rewrite list_lookup_fmap.
    destruct (table !! i) as [out|] eqn:Hi; cbn [fmap option_fmap option_map].
    + destruct (Hflag _ _ Hi) as [H1 H0].
      destruct (decide (i < length pre)%nat) as [Hlt|Hge].
      * rewrite lookup_app_l by (by rewrite length_replicate).
        rewrite lookup_replicate_2 by done. f_equal. apply H0.
        intros (j & row & Hj & Hrow & Hcode).
        rewrite lookup_app_l in Hrow by lia.
        apply (Hpre row); [|done]. by eapply list_elem_of_lookup_2.
      * apply lookup_lt_Some in Hi as Hlti.
        rewrite lookup_app_r by (rewrite length_replicate; lia).
        rewrite length_replicate, lookup_replicate_2 by lia. f_equal. apply H1.
        exists (length pre), b. split_and!; [lia| |done].
        by rewrite list_lookup_middle.
    + apply lookup_ge_None in Hi. symmetry. apply lookup_ge_None.
      rewrite length_app, !length_replicate. lia.
Qed.

End WalkClaims.

Example walk_sheet : walk PyStr.ascii_lower Example.sheet = Ok Example.walked.
Proof. reflexivity. Qed.

Example walk_orphan_sheet :
  walk PyStr.ascii_lower Example.orphan_sheet = Ok Example.walked_orphan.
Proof. reflexivity. Qed.

(** A row of type other with no university row before it stops the walk. *)
Example walk_other_first :
  walk PyStr.ascii_lower [Example.rektorat; Example.uk] = Raise TypeError.
Proof. reflexivity. Qed.

Lemma walk_links_members_witness :
  ∃ u, nearest_university_before PyStr.ascii_lower Example.sheet 3 u ∧
       university Example.walked_ktf = Some (name u).
Proof.
  destruct (walk_links_members PyStr.ascii_lower Example.sheet Example.walked
              3 Example.walked_ktf) as (_ & _ & Hlinked & _).
  - reflexivity.
  - reflexivity.
  - left.
  - apply Hlinked. exists 2%nat, Example.uk. split_and!; [lia|reflexivity..].
Defined.

(** C1 as stated fails on a sheet that opens with a faculty row: the walk
    finishes and leaves the [university] of that row null. *)
Lemma faculty_before_any_university_unlinked :
  walk PyStr.ascii_lower Example.orphan_sheet = Ok Example.walked_orphan ∧
  ¬ members_linked PyStr.ascii_lower Example.orphan_sheet Example.walked_orphan.
Proof.
  split; [reflexivity|]. intros Hlinked.
  destruct (Hlinked 0%nat _ eq_refl) as (u & _ & Hu); [left|].
  discriminate Hu.
Qed.

Lemma private_flag_monotone_witness :
  private <$> Example.walked = replicate 7 0 ++ replicate 2 1.
Proof.
  destruct (private_flag_monotone PyStr.ascii_lower Example.sheet Example.walked)
    as (_ & _ & Hsplit); [reflexivity|].
  apply (Hsplit (take 7 Example.sheet) Example.boundary [Example.sting]);
    [reflexivity..|].
  intros row Hin.
  repeat (apply elem_of_cons in Hin as [->|Hin]; [done|]).
  by apply elem_of_nil in Hin.
Defined.

(** ** The location resolver *)

(** The world after a request that took [took]. *)
Definition after_request (w : world) (addr : string) (resp : response)
    (took : Q) : world :=
  World (later (now w) took) (sent w ++ [Request (now w) addr resp]).

(** The world after an answered request and the pause that follows it. *)
Definition after_answer (w : world) (addr : string) (resp : response)
    (took : Q) : world :=
  let w1 := after_request w addr resp took in
  let qdiff := (now w1 - now w)%Q in
  if Qlt_le_dec qdiff 1 then World (later (now w1) (1 - qdiff)) (sent w1) else w1.

(** The request was answered with [coords] for the key [a]. *)
Definition answered (new : list request) (a : string)
    (coords : option Location.t) : Prop :=
  ∃ rq, rq ∈ new ∧ query rq = a ∧ outcome rq = Answered coords.

(** The lookup did not resolve the key: it raised, or found no hit. *)
Definition unresolved (rq : request) : Prop :=
  outcome rq = Failed ∨ outcome rq = Answered None.

Section NominatimFacts.

Variable nominatim : world → string → response * Q.

Lemma locate_known (places : gmap string (option Location.t)) addr w :
  is_Some (places !! addr) → locate nominatim places addr w = (Ok places, w).
Proof.
  intros Hknown. unfold locate, try_except_Exception.
  by rewrite bool_decide_eq_true_2.
Qed.

Lemma locate_unknown (places : gmap string (option Location.t)) addr w resp took :
  places !! addr = None → nominatim w addr = (resp, took) →
  locate nominatim places addr w =
    match resp with
    | Answered coords =>
        (Ok (<[addr := coords]> places), after_answer w addr resp took)
    | Failed => (Ok places, after_request w addr resp took)
    | Interrupted => (Raise KeyboardInterrupt, after_request w addr resp took)
    end.
Proof.
  intros Hnew Hresp. unfold locate, try_except_Exception.
  rewrite bool_decide_eq_false_2 by (rewrite Hnew; by intros [? ?]).
  unfold mbind, M_bind, time_time, geocode. rewrite Hresp.
  destruct resp; cbn; [|done..].
  unfold after_answer, after_request. cbn. by destruct (Qlt_le_dec _ 1).
Qed.

Lemma sent_after_answer w addr resp took :
  sent (after_answer w addr resp took) = sent w ++ [Request (now w) addr resp].
Proof. unfold after_answer. cbn. by destruct (Qlt_le_dec _ 1). Qed.

(** What a run of the loop from [places] sends, and what it leaves. *)
Lemma for_each_locate addrs : ∀ (places : gmap string (option Location.t)) w r w',
  for_each (locate nominatim) places addrs w = (r, w') →
  ∃ new,
    sent w' = sent w ++ new ∧
    sublist (query <$> new) addrs ∧
    (∀ rq, rq ∈ new → places !! query rq = None) ∧
    match r with
    | Ok places' =>
        (∀ a coords, places' !! a = Some coords ↔
           places !! a = Some coords ∨ answered new a coords) ∧
        (∀ a, a ∈ addrs → places !! a = None → ∃ rq, rq ∈ new ∧ query rq = a) ∧
        (∀ rq, rq ∈ new → outcome rq ≠ Interrupted)
    | Raise e =>
        e = KeyboardInterrupt ∧
        ∃ front rq, new = front ++ [rq] ∧ outcome rq = Interrupted
    end.
Proof.
  induction addrs as [|addr rest IH]; intros places w r w'.
  - intros [= <- <-]. exists []. rewrite app_nil_r.
    split_and!; try done.
    + by intros ? ?%elem_of_nil.
    + intros a coords. split; [by left|]. intros [?|(rq & []%elem_of_nil & _)]. done.
    + by intros a ?%elem_of_nil.
    + by intros rq ?%elem_of_nil.
  - cbn [for_each]. unfold mbind at 1, M_bind at 1.
    destruct (places !! addr) as [known|] eqn:Hplaces.
    + rewrite locate_known by (by rewrite Hplaces). intros Hrest.
      destruct (IH _ _ _ _ Hrest) as (new & Hsent & Hsub & Hfresh & Hr).
      exists new. split_and!; [done|by apply sublist_cons|done|].
      destruct r as [places'|e]; [|done].
      destruct Hr as (Hlookup & Hcover & Hint). split_and!; [done| |done].
      intros a [->|Ha]%elem_of_cons Hnone; [congruence|by apply Hcover].
    + destruct (nominatim w addr) as [resp took] eqn:Hresp.
      rewrite (locate_unknown _ _ _ _ _ Hplaces Hresp).
      set (rq1 := Request (now w) addr resp).
      destruct resp as [coords| |].
      * intros Hrest.
        destruct (IH _ _ _ _ Hrest) as (new & Hsent & Hsub & Hfresh & Hr).
        rewrite sent_after_answer in Hsent. fold rq1 in Hsent.
        exists (rq1 :: new). split_and!.
        -- by rewrite Hsent, <-app_assoc.
        -- by apply sublist_skip.
        -- intros rq [->|Hrq]%elem_of_cons; [done|].
           by apply Hfresh, lookup_insert_None in Hrq as [? _].
        -- destruct r as [places'|e].
           ++ destruct Hr as (Hlookup & Hcover & Hint). split_and!.
              ** intros a c. rewrite Hlookup. unfold answered.
                 setoid_rewrite elem_of_cons. split.
                 --- intros [Hins|(rq & Hrq & Hq & Ho)].
                     +++ apply lookup_insert_Some in Hins as [[<- <-]|[? ?]];
                           [right; by exists rq1; eauto|by left].
                     +++ right. exists rq. eauto.
                 --- intros [Hold|(rq & [->|Hrq] & Hq & Ho)].
                     +++ left. apply lookup_insert_Some. right. split; [|done].
                         intros <-. congruence.
                     +++ cbn in Hq, Ho. injection Ho as <-. subst a.
                         left. by apply lookup_insert_eq.
                     +++ right. exists rq. eauto.
              ** intros a [->|Ha]%elem_of_cons Hnone.
                 --- exists rq1. split; [by left|done].
                 --- destruct (decide (a = addr)) as [->|Hne].
                     +++ exists rq1. split; [by left|done].
                     +++ destruct (Hcover a Ha) as (rq & ? & ?).
                         { by rewrite lookup_insert_ne. }
                         exists rq. split; [by right|done].
              ** intros rq [->|Hrq]%elem_of_cons; [done|by apply Hint].
           ++ destruct Hr as (-> & front & rq & -> & Ho). split; [done|].
              by exists (rq1 :: front), rq.
      * intros Hrest.
        destruct (IH _ _ _ _ Hrest) as (new & Hsent & Hsub & Hfresh & Hr).
        cbn in Hsent. fold rq1 in Hsent.
        exists (rq1 :: new). split_and!.
        -- by rewrite Hsent, <-app_assoc.
        -- by apply sublist_skip.
        -- intros rq [->|Hrq]%elem_of_cons; [done|by apply Hfresh].
        -- destruct r as [places'|e].
           ++ destruct Hr as (Hlookup & Hcover & Hint). split_and!.
              ** intros a c. rewrite Hlookup. unfold answered.
                 setoid_rewrite elem_of_cons. split.
                 --- intros [?|(rq & ? & ? & ?)]; [by left|right; exists rq; eauto].
                 --- intros [?|(rq & [->|?] & ? & ?)];
                       [by left|done|right; exists rq; eauto].
              ** intros a [->|Ha]%elem_of_cons Hnone.
                 --- exists rq1. split; [by left|done].
                 --- destruct (Hcover a Ha Hnone) as (rq & ? & ?).
                     exists rq. split; [by right|done].
              ** intros rq [->|Hrq]%elem_of_cons; [done|by apply Hint].
           ++ destruct Hr as (-> & front & rq & -> & Ho). split; [done|].
              by exists (rq1 :: front), rq.
      * intros [= <- <-]. exists [rq1]. split_and!; try done.
        -- apply sublist_skip, sublist_nil_l.
        -- by intros rq ->%list_elem_of_singleton.
        -- by exists [], rq1.
Qed.

End NominatimFacts.

Lemma NoDup_fmap_eq {A B} (f : A → B) (l : list A) (x y : A) :
  NoDup (f <$> l) → x ∈ l → y ∈ l → f x = f y → x = y.
Proof.
  induction l as [|z l IH]; [by intros _ ?%elem_of_nil|].
  rewrite fmap_cons, NoDup_cons.
  intros [Hz Hnd] [->|Hx]%elem_of_cons [->|Hy]%elem_of_cons Hf; [done| | |by apply IH].
  - destruct Hz. rewrite Hf. by apply list_elem_of_fmap_2.
  - destruct Hz. rewrite <-Hf. by apply list_elem_of_fmap_2.
Qed.

Section ResolverClaims.

Variable nominatim : world → string → response * Q.

Lemma get_locations_false addresses w :
  get_locations nominatim addresses false w =
    match for_each (locate nominatim) ∅ addresses w with
    | (Ok places, w') => (Ok (omap (fmap to_point) places), w')
    | (Raise e, w') => (Raise e, w')
    end.
Proof.
  unfold get_locations, mbind, M_bind.
  by destruct (for_each _ _ _ _) as [[places|e] w'].
Qed.

Lemma get_locations_true addresses w :
  get_locations nominatim addresses true w
  = for_each (locate nominatim) ∅ addresses w.
Proof.
  unfold get_locations, mbind, M_bind.
  by destruct (for_each _ _ _ _) as [[places|e] w'].
Qed.

(** The run of the loop behind either mode, from an empty [places]. *)
Lemma locate_all addresses w (places : gmap string (option Location.t)) w' :
  for_each (locate nominatim) ∅ addresses w = (Ok places, w') →
  ∃ new,
    sent w' = sent w ++ new ∧
    sublist (query <$> new) addresses ∧
    (∀ a coords, places !! a = Some coords ↔ answered new a coords) ∧
    (∀ a, a ∈ addresses → ∃ rq, rq ∈ new ∧ query rq = a) ∧
    (∀ rq, rq ∈ new → outcome rq ≠ Interrupted).
Proof.
  intros Hrun.
  destruct (for_each_locate _ _ _ _ _ _ Hrun)
    as (new & Hsent & Hsub & _ & Hlookup & Hcover & Hint).
  exists new. split_and!; [done..| | |done].
  - intros a c. rewrite Hlookup, lookup_empty. split; [by intros [?|?]|by right].
  - intros a Ha. by apply Hcover.
Qed.

(** The guarantee of the resolver in its default mode, on the requests
    [new] a run sends: the keys of the result are input strings; every
    value is the point of a hit the service gave for its key; the key of a
    lookup that raised or found nothing is absent; no key is asked twice. *)
Definition resolver_guarantee (addresses : list string) : Prop :=
  ∀ w (geoplaces : gmap string Point) w',
    get_locations nominatim addresses false w = (Ok geoplaces, w') →
    ∃ new,
      sent w' = sent w ++ new ∧
      (∀ a, is_Some (geoplaces !! a) → a ∈ addresses) ∧
      (∀ a p, geoplaces !! a = Some p →
         ∃ place, answered new a (Some place) ∧ p = to_point place) ∧
      (∀ rq, rq ∈ new → unresolved rq → geoplaces !! query rq = None) ∧
      NoDup (query <$> new).

(** For any list of addresses: the keys are input strings, the values are
    points of hits, a key answered with no hit is absent, and the
    requests follow the order of the list. *)
Lemma get_locations_any_keys addresses w (geoplaces : gmap string Point) w' :
  get_locations nominatim addresses false w = (Ok geoplaces, w') →
  ∃ new,
    sent w' = sent w ++ new ∧
    sublist (query <$> new) addresses ∧
    (∀ a p, geoplaces !! a = Some p ↔
       ∃ place, answered new a (Some place) ∧ p = to_point place) ∧
    (∀ a, answered new a None → geoplaces !! a = None) ∧
    (∀ a, a ∈ addresses → ∃ rq, rq ∈ new ∧ query rq = a).
Proof.
  rewrite get_locations_false.
  destruct (for_each _ _ _ _) as [[places|e] w1] eqn:Hrun; [|done].
  intros [= <- <-].
  destruct (locate_all _ _ _ _ Hrun) as (new & Hsent & Hsub & Hlookup & Hcover & _).
  exists new. split_and!; [done..| | |done].
  - intros a p. rewrite lookup_omap_Some. split.
    + intros ([place|] & [= <-] & Hplace). exists place.
      split; [by apply Hlookup|done].
    + intros (place & Hans & ->). exists (Some place).
      split; [done|by apply Hlookup].
  - intros a Hans. apply Hlookup in Hans. by rewrite lookup_omap, Hans.
Qed.

(** For distinct addresses the guarantee holds. *)
Lemma resolver_guarantee_distinct addresses :
  NoDup addresses → resolver_guarantee addresses.
Proof.
  intros Hnodup w geoplaces w' Hget.
  destruct (get_locations_any_keys _ _ _ _ Hget)
    as (new & Hsent & Hsub & Hpoints & Hnohit & _).
  assert (NoDup (query <$> new)) as Hnd by by eapply sublist_NoDup.
  exists new. split_and!; [done| | | |done].
  - intros a [p Hp]. apply Hpoints in Hp as (place & (rq & Hrq & <- & _) & _).
    eapply elem_of_sublist; [|done]. by apply list_elem_of_fmap_2.
  - intros a p Hp. by apply Hpoints.
  - intros rq Hrq Hun.
    destruct (geoplaces !! query rq) as [p|] eqn:Hp; [|done].
    apply Hpoints in Hp as (place & (rq' & Hrq' & Hq & Ho) & _).
    assert (rq' = rq) as -> by by eapply NoDup_fmap_eq.
    destruct Hun; congruence.
Qed.

(** The call returns a mapping, or a lookup was interrupted from the
    keyboard and the interrupt leaves the call. *)
Lemma get_locations_returns addresses w :
  (∃ (geoplaces : gmap string Point) w',
     get_locations nominatim addresses false w = (Ok geoplaces, w')) ∨
  (∃ w' front rq,
     get_locations nominatim addresses false w = (Raise KeyboardInterrupt, w') ∧
     sent w' = sent w ++ front ++ [rq] ∧ outcome rq = Interrupted).
Proof.
  rewrite get_locations_false.
  destruct (for_each _ _ _ _) as [[places|e] w1] eqn:Hrun.
  - left. by eexists _, _.
  - right. destruct (for_each_locate _ _ _ _ _ _ Hrun)
      as (new & Hsent & _ & _ & -> & front & rq & -> & Hint).
    by exists w1, front, rq.
Qed.

(** C4, amended. For a list of distinct addresses, the mapping returned in
    the default mode has only input strings as keys, every value is the
    point of a hit the service gave for its key, every key whose lookup
    raised an error or found no hit is absent, and no key is asked twice.
    The call returns unless a lookup is interrupted from the keyboard. *)
Theorem get_locations_distinct_keys addresses :
  NoDup addresses →
  resolver_guarantee addresses ∧
  ∀ w, (∃ (geoplaces : gmap string Point) w',
          get_locations nominatim addresses false w = (Ok geoplaces, w')) ∨
       (∃ w' front rq,
          get_locations nominatim addresses false w = (Raise KeyboardInterrupt, w') ∧
          sent w' = sent w ++ front ++ [rq] ∧ outcome rq = Interrupted).
Proof.
  intros Hnodup. split.
  - by apply resolver_guarantee_distinct.
  - apply get_locations_returns.
Qed.

End ResolverClaims.

Lemma get_locations_distinct_keys_witness :
  resolver_guarantee Example.directory ["Czech Republic"; "Rektorat"].
Proof.
  apply (get_locations_distinct_keys Example.directory
           ["Czech Republic"; "Rektorat"]).
  apply (bool_decide_unpack _). reflexivity.
Defined.

(** C4 as stated fails on a list that repeats a key: the first lookup of
    the key raises, the second finds a hit, and the key is in the result. *)
Lemma repeated_key_is_asked_again :
  ∃ w',
    get_locations Example.flaky ["Praha"; "Praha"] false Example.start
    = (Ok {[ "Praha" := to_point Example.prague ]}, w') ∧
    sent w' = [ Request 0 "Praha" Failed;
                Request (1 # 10) "Praha" (Answered (Some Example.prague)) ] ∧
    ¬ resolver_guarantee Example.flaky ["Praha"; "Praha"].
Proof.
  assert (∃ w',
            get_locations Example.flaky ["Praha"; "Praha"] false Example.start
            = (Ok {[ "Praha" := to_point Example.prague ]}, w') ∧
            sent w' = [ Request 0 "Praha" Failed;
                        Request (1 # 10) "Praha" (Answered (Some Example.prague)) ])
    as (w' & Hrun & Hsent').
  { eexists. split; [vm_compute; reflexivity|reflexivity]. }
  exists w'. split_and!; [done..|]. intros Hguarantee.
  destruct (Hguarantee _ _ _ Hrun) as (new & Hsent & _ & _ & Habsent & _).
  rewrite Hsent' in Hsent. cbn in Hsent. subst new.
  assert (({[ "Praha" := to_point Example.prague ]} : gmap string Point)
            !! "Praha" = None) as Hnone
    by (apply (Habsent (Request 0 "Praha" Failed)); by left).
  by rewrite lookup_singleton_eq in Hnone.
Qed.

(** ** The two modes of the resolver *)

(** C10. With [keep_orig_response=True] the returned mapping holds [None]
    for exactly the keys the service answered with no hit, while the
    default mode, run in the same world, returns the points of the hits
    only, so those keys are absent from it; such a run exists; and
    [get_universities], which calls the first mode, turns a [None] into
    the default point with an empty address. *)
Theorem keep_orig_response_keeps_None :
  (∀ nominatim addresses w (places : gmap string (option Location.t)) w',
     get_locations nominatim addresses true w = (Ok places, w') →
     ∃ new (geoplaces : gmap string Point),
       sent w' = sent w ++ new ∧
       (∀ a, places !! a = Some None ↔ answered new a None) ∧
       get_locations nominatim addresses false w = (Ok geoplaces, w') ∧
       (∀ a, geoplaces !! a = places !! a ≫= fmap to_point) ∧
       (∀ a, places !! a = Some None → geoplaces !! a = None)) ∧
  (∃ w',
     get_locations Example.directory ["Czech Republic"; "Rektorat"] true
       Example.start
     = (Ok {[ "Czech Republic" := Some Example.czechia; "Rektorat" := None ]}, w')) ∧
  (∀ default_point name,
     place_of_item default_point (name, None) = PlaceRow name "" default_point).
Proof.
  split_and!.
  - intros nominatim addresses w places w' Hget.
    rewrite get_locations_true in Hget.
    destruct (locate_all _ _ _ _ _ Hget) as (new & Hsent & _ & Hlookup & _).
    exists new, (omap (fmap to_point) places). split_and!; [done|done| | |].
    + by rewrite get_locations_false, Hget.
    + intros a. by rewrite lookup_omap.
    + intros a Ha. by rewrite lookup_omap, Ha.
  - eexists. vm_compute. reflexivity.
  - done.
Qed.

Lemma keep_orig_response_keeps_None_witness :
  ∃ w' new (geoplaces : gmap string Point),
    sent w' = sent Example.start ++ new ∧
    get_locations Example.directory ["Czech Republic"; "Rektorat"] false
      Example.start = (Ok geoplaces, w') ∧
    geoplaces !! "Rektorat" = None.
Proof.
  destruct keep_orig_response_keeps_None as (Hmodes & [w' Hrun] & _).
  destruct (Hmodes _ _ _ _ _ Hrun)
    as (new & geoplaces & Hsent & _ & Hdefault & _ & Hnone).
  exists w', new, geoplaces. split_and!; [done..|].
  apply Hnone. reflexivity.
Defined.

(** ** The cadence of the requests *)

(** Consecutive requests start at least one second apart. *)
Definition one_second_apart (new : list request) : Prop :=
  ∀ i r1 r2, new !! i = Some r1 → new !! S i = Some r2 →
    (started r1 + 1 <= started r2)%Q.

Section Cadence.

Variable nominatim : world → string → response * Q.

(** No call returns before it was made. *)
Hypothesis took_nonneg : ∀ w addr, (0 <= (nominatim w addr).2)%Q.






End Cadence.

(** C5 fails after a lookup that raises: the pause is in the [try] block
    after the call, so an error skips it. The first request raises after a
    tenth of a second and the second request starts at once, nine tenths
    of a second early. *)
Theorem error_skips_the_pause :
  ∃ w',
    get_locations Example.flaky ["Brno"; "Praha"] false Example.start
    = (Ok {[ "Praha" := to_point Example.prague ]}, w') ∧
    sent w' = [ Request 0 "Brno" Failed;
                Request (1 # 10) "Praha" (Answered (Some Example.prague)) ] ∧
    ¬ one_second_apart (sent w').
Proof.
  assert (∃ w',
            get_locations Example.flaky ["Brno"; "Praha"] false Example.start
            = (Ok {[ "Praha" := to_point Example.prague ]}, w') ∧
            sent w' = [ Request 0 "Brno" Failed;
                        Request (1 # 10) "Praha" (Answered (Some Example.prague)) ])
    as (w' & Hrun & Hsent).
  { eexists. split; [vm_compute; reflexivity|reflexivity]. }
  exists w'. split_and!; [done..|]. rewrite Hsent. intros Hapart.
  specialize (Hapart 0%nat _ _ eq_refl eq_refl). cbn in Hapart.
  by apply Qle_bool_iff in Hapart.
Qed.

(** ** Merging the locations *)

Lemma unique_from_spec (l : list string) : ∀ seen,
  NoDup (unique_from seen l) ∧
  ∀ x, x ∈ unique_from seen l ↔ x ∈ l ∧ x ∉ seen.
Proof.
  induction l as [|y l IH]; intros seen; cbn [unique_from].
  - split; [constructor|]. intros x. rewrite elem_of_nil. tauto.
  - case_bool_decide as Hseen.
    + destruct (IH seen) as [Hnd Hin]. split; [done|].
      intros x. rewrite Hin, elem_of_cons. split; [tauto|].
      intros [[->|?] ?]; [done|tauto].
    + destruct (IH (y :: seen)) as [Hnd Hin]. split.
      * apply NoDup_cons. split; [|done]. rewrite Hin, elem_of_cons. tauto.
      * intros x. rewrite !elem_of_cons, Hin, elem_of_cons.
        destruct (decide (x = y)) as [->|]; tauto.
Qed.

Lemma NoDup_unique l : NoDup (unique l).
Proof. apply unique_from_spec. Qed.

Lemma elem_of_unique l x : x ∈ unique l ↔ x ∈ l.
Proof.
  unfold unique. rewrite (proj2 (unique_from_spec l [])), elem_of_nil. tauto.
Qed.

Lemma filter_list_by_key {V B} (f : string * V → B) (key : B → string)
    (l : list (string * V)) (k : string) :
  (∀ kv, key (f kv) = kv.1) → NoDup l.*1 →
  filter (λ b, key b = k) (f <$> l)
  = match (list_to_map l : gmap string V) !! k with
    | Some v => [f (k, v)]
    | None => []
    end.
Proof.
  intros Hkey. induction l as [|[k' v] l IH]; intros Hnd.
  - by rewrite list_to_map_nil, lookup_empty.
  - rewrite fmap_cons in Hnd. apply NoDup_cons in Hnd as [Hk' Hnd].
    rewrite fmap_cons, filter_cons, Hkey, list_to_map_cons. cbn [fst].
    destruct (decide (k' = k)) as [->|Hne].
    + rewrite lookup_insert_eq. f_equal. rewrite (IH Hnd).
      by rewrite (not_elem_of_list_to_map_1 _ _ Hk').
    + rewrite lookup_insert_ne by done. by apply IH.
Qed.

(** In the items of a dict, made into rows by [f], the rows with key [k]
    are the one row of [k] if the dict has [k], and none otherwise. *)
Lemma filter_items_by_key {V B} (f : string * V → B) (key : B → string)
    (m : gmap string V) (k : string) :
  (∀ kv, key (f kv) = kv.1) →
  filter (λ b, key b = k) (f <$> map_to_list m)
  = match m !! k with Some v => [f (k, v)] | None => [] end.
Proof.
  intros Hkey.
  rewrite (filter_list_by_key f key _ k Hkey (NoDup_fst_map_to_list m)).
  by rewrite list_to_map_to_list.
Qed.

(** The inner merge keeps, in order, the rows whose address is a key of
    [geoplaces], each with the point of its address. *)
Lemma merge_inner_lookup bigtable (geoplaces : gmap string Point) :
  merge_inner bigtable (map_to_list geoplaces)
  = omap (λ row, School.Located row <$> geoplaces !! School.address row) bigtable.
Proof.
  unfold merge_inner. induction bigtable as [|row rest IH]; [done|].
  cbn [mbind list_bind omap list_omap]. rewrite IH.
  pose proof (filter_items_by_key (λ kv : string * Point, kv) fst geoplaces
                (School.address row) (λ _, eq_refl)) as Hfilter.
  rewrite list_fmap_id in Hfilter. rewrite Hfilter.
  by destruct (geoplaces !! School.address row).
Qed.

(** C9. [merge_locations] looks every address of the table up once; it
    returns exactly the rows whose address the service answered with a
    hit, in their order, each with the point of that hit and no other
    point; so a row whose address raised an error or found no hit is not
    in the result. It returns unless a lookup is interrupted from the
    keyboard. *)
Theorem merge_locations_drops_unresolved
    (nominatim : world → string → response * Q) bigtable w :
  match merge_locations nominatim bigtable w with
  | (Ok schools, w') =>
      ∃ new (geoplaces : gmap string Point),
        sent w' = sent w ++ new ∧
        NoDup (query <$> new) ∧
        (∀ row, row ∈ bigtable → ∃ rq, rq ∈ new ∧ query rq = School.address row) ∧
        (∀ a p, geoplaces !! a = Some p ↔
           ∃ place, answered new a (Some place) ∧ p = to_point place) ∧
        schools
        = omap (λ row, School.Located row <$> geoplaces !! School.address row)
               bigtable ∧
        (∀ rq, rq ∈ new → unresolved rq →
           ∀ s, s ∈ schools → School.address (School.school s) ≠ query rq)
  | (Raise e, w') =>
      e = KeyboardInterrupt ∧
      ∃ front rq, sent w' = sent w ++ front ++ [rq] ∧ outcome rq = Interrupted
  end.
Proof.
  unfold merge_locations, mbind, M_bind.
  pose proof (NoDup_unique (School.address <$> bigtable)) as Hnodup.
  pose proof (resolver_guarantee_distinct nominatim _ Hnodup) as Hguarantee.
  pose proof (get_locations_returns nominatim
                (unique (School.address <$> bigtable))) as Hreturns.
  destruct (get_locations nominatim _ false w) as [[geoplaces|e] w'] eqn:Hget.
  - destruct (get_locations_any_keys _ _ _ _ _ Hget)
      as (new & Hsent & Hsub & Hpoints & _ & Hcover).
    destruct (Hguarantee _ _ _ Hget) as (new' & Hsent' & _ & _ & Habsent & Hnd).
    assert (new' = new) as -> by (apply (app_inv_head (sent w)); congruence).
    cbn. exists new, geoplaces. rewrite merge_inner_lookup.
    split_and!; [done|done| |done|done|].
    + intros row Hrow. apply Hcover, elem_of_unique. by apply list_elem_of_fmap_2.
    + intros rq Hrq Hun s Hs Heq.
      apply list_elem_of_omap in Hs as (row & _ & Hs).
      apply fmap_Some in Hs as (p & Hp & ->). cbn in Heq. rewrite Heq in Hp.
      by rewrite (Habsent _ Hrq Hun) in Hp.
  - destruct (Hreturns w) as [(g & w1 & Hok)|(w1 & front & rq & Hint & Hsent & Ho)];
      [congruence|].
    assert (e = KeyboardInterrupt ∧ w1 = w') as [-> ->]
        by (split; congruence).
    split; [done|]. by exists front, rq.
Qed.

Lemma merge_locations_drops_unresolved_witness :
  match
    merge_locations Example.directory
      [Example.found_school; Example.lost_school; Example.found_school]
      Example.start
  with
  | (Ok schools, w') =>
      ∃ new (geoplaces : gmap string Point),
        sent w' = sent Example.start ++ new ∧
        NoDup (query <$> new) ∧
        (∀ row,
           row ∈ [Example.found_school; Example.lost_school; Example.found_school] →
           ∃ rq, rq ∈ new ∧ query rq = School.address row) ∧
        (∀ a p, geoplaces !! a = Some p ↔
           ∃ place, answered new a (Some place) ∧ p = to_point place) ∧
        schools
        = omap (λ row, School.Located row <$> geoplaces !! School.address row)
               [Example.found_school; Example.lost_school; Example.found_school] ∧
        (∀ rq, rq ∈ new → unresolved rq →
           ∀ s, s ∈ schools → School.address (School.school s) ≠ query rq)
  | (Raise e, w') =>
      e = KeyboardInterrupt ∧
      ∃ front rq,
        sent w' = sent Example.start ++ front ++ [rq] ∧ outcome rq = Interrupted
  end.
Proof.
  exact (merge_locations_drops_unresolved Example.directory
           [Example.found_school; Example.lost_school; Example.found_school]
           Example.start).
Defined.

Example merge_locations_schools :
  ∃ w',
    merge_locations Example.directory
      [Example.found_school; Example.lost_school; Example.found_school]
      Example.start
    = (Ok [ School.Located Example.found_school (to_point Example.prague);
            School.Located Example.found_school (to_point Example.prague) ], w') ∧
    sent w' = [ Request 0 "Praha, Ovocny trh 560/5"
                  (Answered (Some Example.prague));
                Request 1 "Horni Dolni, 1" (Answered None) ].
Proof. eexists. split; vm_compute; reflexivity. Qed.

(** ** The geometry of the universities *)

(** A row of the returned table, by what [pre_places] holds for its
    search name: a hit, no hit, or nothing at all. *)
Definition located_row (default_point : Point)
    (pre_places : gmap string (option Location.t)) (l : uni_row) : university_row :=
  match pre_places !! full_name l with
  | Some (Some place) =>
      UniversityRow l (Some (Location.address place)) (Some (to_point place))
  | Some None => UniversityRow l (Some "") (Some default_point)
  | None => UniversityRow l None None
  end.

Lemma merge_left_items default_point
    (pre_places : gmap string (option Location.t)) (uni_counts : list uni_row) :
  merge_left uni_counts (place_of_item default_point <$> map_to_list pre_places)
  = located_row default_point pre_places <$> uni_counts.
Proof.
  unfold merge_left. induction uni_counts as [|l rest IH]; [done|].
  cbn [mbind list_bind]. rewrite fmap_cons, IH.
  rewrite (filter_items_by_key (place_of_item default_point) place_full_name
             pre_places (full_name l)) by (by intros [? ?]).
  unfold located_row. by destruct (pre_places !! full_name l) as [[place|]|].
Qed.

Section UniversitiesFacts.

Variable lower : string → string.
Variable list_set : list string → list string.
Variable nominatim : world → string → response * Q.
Variable gmaps_geocode : string → string → res (list gcode).

(** The default call, step by step: the walk, the lookup of the country,
    the lookups of the names, and the merge. *)
Lemma get_universities_default uni_counts gmaps_key w :
  get_universities lower list_set nominatim gmaps_geocode uni_counts false
    gmaps_key w =
  match walk lower uni_counts with
  | Raise e => (Raise e, w)
  | Ok table =>
      let only_names :=
        list_set (filter (λ n, n ≠ "") (full_name <$> drop_indicators table)) in
      match get_locations nominatim ["Czech Republic"] false w with
      | (Raise e, w1) => (Raise e, w1)
      | (Ok geoplaces, w1) =>
          match (geoplaces : gmap string Point) !! "Czech Republic" with
          | None => (Raise KeyError, w1)
          | Some default_point =>
              match get_locations nominatim only_names true w1 with
              | (Raise e, w2) => (Raise e, w2)
              | (Ok pre_places, w2) =>
                  (Ok (located_row default_point pre_places
                         <$> drop_indicators table), w2)
              end
          end
      end
  end.
Proof.
  unfold get_universities, mbind, M_bind, lift.
  destruct (walk lower uni_counts) as [table|e]; [|done].
  destruct (get_locations nominatim _ false w) as [[geoplaces|e] w1]; [|done].
  unfold subscript. cbv [locations] in *.
  destruct (geoplaces !! "Czech Republic") as [default_point|]; [|done].
  destruct (get_locations nominatim _ true w1) as [[pre_places|e] w2]; [|done].
  unfold mret, M_ret. by rewrite merge_left_items.
Qed.


End UniversitiesFacts.

(** No row is left without a geometry: a row whose name found no location
    has the default point. *)
Definition unresolved_fall_back (default_point : Point)
    (new : list request) (result : list university_row) : Prop :=
  ∀ row rq, row ∈ result → rq ∈ new →
    query rq = full_name (entity row) → unresolved rq →
    geometry row = Some default_point.

(** C8 fails for a name whose lookup raises: the key is then not in
    [pre_places], the left merge finds no row for it, and the geometry of
    the university is null instead of the default point. *)
Theorem failed_lookup_leaves_no_geometry :
  ∃ w',
    get_universities PyStr.ascii_lower remove_dups Example.directory
      Example.no_gmaps [Example.uk; Example.rektorat] false None Example.start
    = (Ok Example.universities, w') ∧
    sent w' = [ Request 0 "Czech Republic" (Answered (Some Example.czechia));
                Request 1 "Univerzita Karlova" Failed;
                Request 2 "Rektorat" (Answered None) ] ∧
    geometry <$> Example.universities = [None; Some (to_point Example.czechia)] ∧
    ¬ unresolved_fall_back (to_point Example.czechia) (sent w')
        Example.universities.
Proof.
  eexists (World _ _). split_and!.
  - vm_compute. reflexivity.
  - reflexivity.
  - reflexivity.
  - intros Hfall.
    specialize (Hfall _ (Request 1 "Univerzita Karlova" Failed)
                  ltac:(by left) ltac:(right; by left) eq_refl ltac:(by left)).
    discriminate Hfall.
Qed.

(** ** The table of a detail page *)

Lemma filter_all {A} (P : A → Prop) `{∀ x, Decision (P x)} (l : list A) :
  (∀ x, x ∈ l → P x) → filter P l = l.
Proof.
  induction l as [|x l IH]; [done|]. intros Hall.
  rewrite filter_cons_True by (apply Hall; by left).
  f_equal. apply IH. intros y Hy. apply Hall. by right.
Qed.

Lemma filter_none {A} (P : A → Prop) `{∀ x, Decision (P x)} (l : list A) :
  (∀ x, x ∈ l → ¬ P x) → filter P l = [].
Proof.
  induction l as [|x l IH]; [done|]. intros Hnone.
  rewrite filter_cons_False by (apply Hnone; by left).
  apply IH. intros y Hy. apply Hnone. by right.
Qed.

(** The table the function picks from the tables of the page. *)
Definition selected (raw_tables : list data_frame) (raw : data_frame) : Prop :=
  (length raw_tables = 3%nat ∧ raw_tables !! 2%nat = Some raw) ∨
  (length raw_tables ≠ 3%nat ∧ raw_tables !! 3%nat = Some raw).

Lemma selected_lookup raw_tables raw :
  selected raw_tables raw →
  raw_tables !! (if bool_decide (length raw_tables = 3%nat) then 2%nat else 3%nat)
  = Some raw.
Proof.
  intros [[Hlen ?]|[Hlen ?]];
    [by rewrite bool_decide_eq_true_2|by rewrite bool_decide_eq_false_2].
Qed.

(** The row [(label, header)] is the first row of [raw] with a cell that
    is not NaN; [more] are the rows after it. *)
Definition first_data_row (raw : data_frame) (label : nat)
    (header : list cell) (more : list (nat * list cell)) : Prop :=
  ∃ blank,
    rows raw = blank ++ (label, header) :: more ∧
    (∀ r, r ∈ blank → forallb is_nan r.2 = true) ∧
    forallb is_nan header = false.

Section ParseTableFacts.

Variable read_html : string → res (list data_frame).

Lemma dropna_all_first_data_row raw label header more :
  first_data_row raw label header more →
  rows (dropna_all raw)
  = (label, header) :: filter (λ r, forallb is_nan r.2 = false) more.
Proof.
  intros (blank & Hrows & Hblank & Hheader). unfold dropna_all. cbn [rows].
  rewrite Hrows, filter_app, filter_cons_True by done.
  rewrite filter_none; [done|]. intros r Hr. by rewrite (Hblank r Hr).
Qed.

(** How the function ends, by what [pd.read_html] gives. *)
Lemma parse_table_details_cases page_source :
  parse_table_details read_html page_source =
  match read_html page_source with
  | Raise ValueError => Ok empty_frame
  | Raise e => Raise e
  | Ok raw_tables =>
      match raw_tables !! (if bool_decide (length raw_tables = 3%nat)
                           then 2%nat else 3%nat) with
      | None => Raise IndexError
      | Some raw =>
          match rows (dropna_all raw) with
          | [] => Raise IndexError
          | (label, header) :: rest =>
              Ok (DataFrame header (filter (λ r, r.1 ≠ label) rest))
          end
      end
  end.
Proof.
  unfold parse_table_details, try_except_ValueError, mbind, res_bind, item.
  destruct (read_html page_source) as [raw_tables|e]; [|by destruct e].
  destruct (raw_tables !! _) as [raw|]; [|done].
  destruct (rows (dropna_all raw)) as [|[label header] rest] eqn:Hrows; [done|].
  cbn. unfold drop_label. cbn [rows columns].
  by rewrite filter_cons_False by (cbn; by intros []).
Qed.

(** C7, amended. When the page has exactly three tables the function
    selects the third, and when it has four or more it selects the fourth;
    it takes the first row of the selected table that is not all NaN as
    the header and returns the rows with data after it; when
    [pd.read_html] raises [ValueError] it returns an empty table. *)
Theorem parse_table_details_selects page_source :
  (∀ raw_tables raw label header more,
     read_html page_source = Ok raw_tables →
     selected raw_tables raw →
     first_data_row raw label header more →
     NoDup (rows raw).*1 →
     parse_table_details read_html page_source
     = Ok (DataFrame header (filter (λ r, forallb is_nan r.2 = false) more))) ∧
  (read_html page_source = Raise ValueError →
   parse_table_details read_html page_source = Ok empty_frame).
Proof.
  split.
  - intros raw_tables raw label header more Hread Hsel Hfirst Hnd.
    rewrite parse_table_details_cases, Hread.
    rewrite (selected_lookup _ _ Hsel).
    rewrite (dropna_all_first_data_row _ _ _ _ Hfirst). do 2 f_equal.
    apply filter_all. intros [label' cells] Hin%list_elem_of_filter Heq.
    destruct Hfirst as (blank & Hrows & _). rewrite Hrows, fmap_app in Hnd.
    apply NoDup_app in Hnd as (_ & _ & Hnd). rewrite fmap_cons in Hnd.
    apply NoDup_cons in Hnd as [Hfresh _]. apply Hfresh.
    cbn in Heq. subst label'. destruct Hin as [_ Hin].
    by apply (list_elem_of_fmap_2 fst) in Hin.
  - intros Hread. by rewrite parse_table_details_cases, Hread.
Qed.

(** With one or two tables there is no fourth table to select, and with
    no row of data there is no header: the [IndexError] is not caught. *)
Lemma parse_table_details_raises page_source raw_tables :
  read_html page_source = Ok raw_tables →
  (length raw_tables < 3)%nat ∨
  (∃ raw, selected raw_tables raw ∧
     ∀ r, r ∈ rows raw → forallb is_nan r.2 = true) →
  parse_table_details read_html page_source = Raise IndexError.
Proof.
  intros Hread Hcase. rewrite parse_table_details_cases, Hread.
  destruct Hcase as [Hlen|(raw & Hsel & Hblank)].
  - rewrite bool_decide_eq_false_2 by lia.
    by rewrite lookup_ge_None_2 by lia.
  - rewrite (selected_lookup _ _ Hsel).
    unfold dropna_all. cbn [rows]. rewrite filter_none; [done|].
    intros r Hr. by rewrite (Hblank r Hr).
Qed.

End ParseTableFacts.

(** The function returns a table built from the third table of a page of
    three tables, or from the fourth table of any other page. *)
Definition selects_third_or_fourth (read_html : string → res (list data_frame))
    (page_source : string) : Prop :=
  ∀ raw_tables, read_html page_source = Ok raw_tables →
    ∃ raw table,
      selected raw_tables raw ∧
      parse_table_details read_html page_source = Ok table.

Lemma parse_table_details_selects_witness :
  parse_table_details Example.read_html "four"
  = Ok (DataFrame [Some "Id. zarizeni"; Some "Typ"]
          [(2%nat, [Some "600001"; Some "Gymnazium"])]).
Proof.
  apply (proj1 (parse_table_details_selects Example.read_html "four")
           Example.four_tables Example.detail 1%nat
           [Some "Id. zarizeni"; Some "Typ"]
           [(2%nat, [Some "600001"; Some "Gymnazium"]); (3%nat, [None; None])]).
  - reflexivity.
  - right. split; [done|reflexivity].
  - exists [(0%nat, [None; None])]. split_and!; [reflexivity| |reflexivity].
    by intros r ->%list_elem_of_singleton.
  - apply (bool_decide_unpack _). reflexivity.
Defined.

(** C7 as stated fails on a page of two tables: the function asks for the
    fourth table and the [IndexError] leaves it. *)
Lemma two_tables_raise_IndexError :
  Example.read_html "two" = Ok [Example.layout; Example.layout] ∧
  parse_table_details Example.read_html "two" = Raise IndexError ∧
  ¬ selects_third_or_fourth Example.read_html "two".
Proof.
  split_and!; [reflexivity..|]. intros Hsel.
  destruct (Hsel _ eq_refl) as (raw & table & _ & Hparse).
  discriminate Hparse.
Qed.

(** * Further properties *)

(** ** Chunking: the number of chunks *)

(** With no chunk asked for the division fails, and a negative number
    of chunks gives no chunk at all, whatever the values. *)
Theorem get_chunks_without_chunks {A} (values : list A) (n : Z) :
  get_chunks values 0 = Raise ZeroDivisionError ∧
  (n < 0 → get_chunks values n = Ok []).
Proof.
  split; [done|]. intros Hn. unfold get_chunks, divmod, range.
  rewrite bool_decide_eq_false_2 by lia. cbn.
  by rewrite Z2Nat.nonpos by lia.
Qed.

Lemma get_chunks_without_chunks_witness :
  get_chunks [1; 2; 3] (-2) = Ok [].
Proof.
  apply (proj2 (get_chunks_without_chunks [1; 2; 3] (-2))). lia.
Defined.

(** ** The row walk: what it keeps and what it writes *)

Lemma walk_row_columns last_uni_row flag row ty last' flag' out :
  walk_row last_uni_row flag row ty = Ok (last', flag', out) →
  match ty, last_uni_row with
  | Faculty, Some u =>
      faculty out = Some (name row) ∧ other out = None ∧
      full_name out = name u +:+ ", " +:+ name row
  | Other, _ =>
      faculty out = None ∧ other out = Some (name row) ∧
      full_name out = name row
  | _, _ =>
      faculty out = None ∧ other out = None ∧ full_name out = name row
  end.
Proof.
  unfold walk_row.
  destruct last_uni_row as [u|], ty; simpl; by intros [= <- <- <-].
Qed.

Section WalkColumns.

Variable lower : string → string.

Local Abbreviation type_of := (get_university_type lower).

Lemma walk_base rows table :
  walk lower rows = Ok table → base <$> table = rows.
Proof.
  intros Hwalk.
  pose proof (walk_from_length lower _ _ _ _ Hwalk) as Hlen.
  apply list_eq. intros i. rewrite list_lookup_fmap.
  destruct (table !! i) as [out|] eqn:Hi; cbn.
  - by destruct (walk_lookup lower _ _ _ _ Hwalk Hi) as (-> & _).
  - apply lookup_ge_None in Hi. symmetry. apply lookup_ge_None. lia.
Qed.

(** The walk neither drops nor reorders rows: the table of a finished
    walk has the rows of the sheet, in order, each with its derived type. *)
Theorem walk_keeps_rows rows table :
  walk lower rows = Ok table →
  base <$> table = rows ∧ type <$> table = type_of <$> rows.
Proof.
  intros Hwalk.
  pose proof (walk_from_length lower _ _ _ _ Hwalk) as Hlen.
  assert (∀ i out, table !! i = Some out →
            rows !! i = Some (base out) ∧ type out = type_of (base out)) as Hrow.
  { intros i out Hi. by destruct (walk_lookup lower _ _ _ _ Hwalk Hi) as (? & ? & _). }
  split; apply list_eq; intros i; rewrite !list_lookup_fmap.
  - destruct (table !! i) as [out|] eqn:Hi; cbn.
    + by destruct (Hrow _ _ Hi) as [-> _].
    + apply lookup_ge_None in Hi. symmetry. apply lookup_ge_None. lia.
  - destruct (table !! i) as [out|] eqn:Hi; cbn.
    + destruct (Hrow _ _ Hi) as [-> ->]. done.
    + apply lookup_ge_None in Hi.
      rewrite (lookup_ge_None_2 rows) by lia. done.
Qed.

(** The search string and the name columns of a row: a faculty row with a
    university row before it gets the name of the nearest such row, a
    comma and a blank before its own name, and its name in [faculty];
    every other row is searched by its own name, a row of type other has
    its name in [other], and a faculty row with no university row before
    it gets neither column. *)
Theorem walk_search_strings rows table i out :
  walk lower rows = Ok table →
  table !! i = Some out →
  (∀ u, type out = Faculty → nearest_university_before lower rows i u →
     full_name out = name u +:+ ", " +:+ name (base out) ∧
     faculty out = Some (name (base out)) ∧ other out = None) ∧
  (type out = Faculty → ¬ university_before lower rows i →
     full_name out = name (base out) ∧ faculty out = None ∧ other out = None) ∧
  (type out = Other →
     full_name out = name (base out) ∧ faculty out = None ∧
     other out = Some (name (base out))) ∧
  (type out = University ∨ type out = Indicator →
     full_name out = name (base out) ∧ faculty out = None ∧ other out = None).
Proof.
  intros Hwalk Hi.
  destruct (walk_from_lookup lower _ _ _ _ _ _ Hwalk Hi) as (row & Hrow & Hturn).
  apply walk_row_Ok in Hturn as Hok. destruct Hok as (_ & _ & Hbase & Hty & _).
  apply walk_row_columns in Hturn. subst row. rewrite <-Hty in Hturn.
  split_and!.
  - intros u Hfac Hu. apply last_uni_after_Some in Hu.
    rewrite Hfac, Hu in Hturn. by destruct Hturn as (-> & -> & ->).
  - intros Hfac Hnone. apply last_uni_after_None in Hnone.
    rewrite Hfac, Hnone in Hturn. by destruct Hturn as (-> & -> & ->).
  - intros Hother. rewrite Hother in Hturn.
    by destruct Hturn as (-> & -> & ->).
  - intros [Huni|Hind]; [rewrite Huni in Hturn|rewrite Hind in Hturn];
      by destruct Hturn as (-> & -> & ->).
Qed.

End WalkColumns.

Lemma walk_keeps_rows_witness :
  base <$> Example.walked = Example.sheet ∧
  type <$> Example.walked
  = get_university_type PyStr.ascii_lower <$> Example.sheet.
Proof.
  apply (walk_keeps_rows PyStr.ascii_lower Example.sheet Example.walked).
  reflexivity.
Defined.

Lemma walk_search_strings_witness :
  full_name Example.walked_ktf
  = "Univerzita Karlova" +:+ ", " +:+ "Katolicka teologicka fakulta" ∧
  faculty Example.walked_ktf = Some "Katolicka teologicka fakulta" ∧
  other Example.walked_ktf = None.
Proof.
  destruct (walk_search_strings PyStr.ascii_lower Example.sheet Example.walked
              3 Example.walked_ktf) as (Hfaculty & _); [reflexivity..|].
  apply (Hfaculty Example.uk); [reflexivity|].
  exists 2%nat. split_and!; [lia|reflexivity..|].
  intros k x Hk. lia.
Defined.

(** ** [get_universities]: failures and the rows of the result *)

Lemma drop_indicators_base (type_of : counts_row → university_type)
    (table : list uni_row) :
  (∀ out, out ∈ table → type out = type_of (base out)) →
  base <$> drop_indicators table
  = filter (λ row, type_of row ≠ Indicator) (base <$> table).
Proof.
  unfold drop_indicators. induction table as [|out table IH]; [done|].
  intros Htype. rewrite fmap_cons, !filter_cons.
  rewrite <-(Htype out) by by left.
  rewrite <-IH by (intros ? ?; apply Htype; by right).
  by destruct (decide (type out ≠ Indicator)).
Qed.

Section UniversitiesFailures.

Variable lower : string → string.
Variable list_set : list string → list string.
Variable nominatim : world → string → response * Q.
Variable gmaps_geocode : string → string → res (list gcode).

Local Abbreviation type_of := (get_university_type lower).

(** A sheet with a row of type other that no university row precedes
    stops [get_universities] with a [TypeError] before any request is
    sent, in either mode. *)
Theorem get_universities_orphan_other uni_counts use_gmaps gmaps_key w :
  (∃ i row, uni_counts !! i = Some row ∧ type_of row = Other ∧
     ¬ university_before lower uni_counts i) →
  get_universities lower list_set nominatim gmaps_geocode uni_counts
    use_gmaps gmaps_key w = (Raise TypeError, w).
Proof.
  intros (i & row & Hrow & Hty & Hnone).
  unfold get_universities, mbind, M_bind, lift.
  destruct (walk lower uni_counts) as [table|e] eqn:Hwalk.
  - pose proof (walk_from_length lower _ _ _ _ Hwalk) as Hlen.
    destruct (table !! i) as [out|] eqn:Hout.
    + destruct (walk_lookup lower _ _ _ _ Hwalk Hout)
        as (Hrow' & Htype & _ & _ & Hother).
      assert (base out = row) as Hbase by congruence.
      rewrite Hbase in Htype. apply last_uni_after_None in Hnone.
      destruct (Hother ltac:(congruence)) as [u Hu]. congruence.
    + apply lookup_ge_None in Hout. apply lookup_lt_Some in Hrow. lia.
  - by apply walk_raises in Hwalk as [-> _].
Qed.


Lemma get_universities_entities uni_counts gmaps_key w result w' :
  get_universities lower list_set nominatim gmaps_geocode uni_counts false
    gmaps_key w = (Ok result, w') →
  ∃ table,
    walk lower uni_counts = Ok table ∧ entity <$> result = drop_indicators table.
Proof.
  rewrite get_universities_default.
  destruct (walk lower uni_counts) as [table|e]; [|done]. cbn zeta.
  destruct (get_locations nominatim _ false w) as [[geoplaces|e] w1]; [|done].
  cbv [locations] in *.
  destruct (geoplaces !! "Czech Republic") as [default_point|]; [|done].
  destruct (get_locations nominatim _ true w1) as [[pre_places|e] w2]; [|done].
  intros [= <- <-]. cbv [locations] in *. exists table. split; [done|].
  rewrite <-list_fmap_compose.
  rewrite <-(list_fmap_id (drop_indicators table)) at 2.
  apply list_fmap_ext. intros i l _. unfold located_row. cbn.
  by destruct (pre_places !! full_name l) as [[place|]|].
Qed.

(** In the default mode the returned table has one row for each row of
    the sheet that is not an indicator row, in the order of the sheet. *)
Theorem get_universities_one_row_each uni_counts gmaps_key w result w' :
  get_universities lower list_set nominatim gmaps_geocode uni_counts false
    gmaps_key w = (Ok result, w') →
  base ∘ entity <$> result
  = filter (λ row, type_of row ≠ Indicator) uni_counts.
Proof.
  intros Hget.
  destruct (get_universities_entities _ _ _ _ _ Hget) as (table & Hwalk & Hentity).
  rewrite list_fmap_compose, Hentity, (drop_indicators_base type_of),
    (walk_base lower _ _ Hwalk); [done|].
  intros out (i & Hi)%list_elem_of_lookup.
  by destruct (walk_lookup lower _ _ _ _ Hwalk Hi) as (_ & ? & _).
Qed.

End UniversitiesFailures.

Lemma get_universities_orphan_other_witness :
  get_universities PyStr.ascii_lower remove_dups Example.directory
    Example.no_gmaps [Example.rektorat; Example.uk] false None Example.start
  = (Raise TypeError, Example.start).
Proof.
  apply get_universities_orphan_other.
  exists 0%nat, Example.rektorat. split_and!; [reflexivity..|].
  intros (j & u & Hj & _). lia.
Defined.


Lemma get_universities_one_row_each_witness :
  base ∘ entity <$> Example.universities
  = filter (λ row, get_university_type PyStr.ascii_lower row ≠ Indicator)
      [Example.total; Example.uk; Example.rektorat].
Proof.
  eapply (get_universities_one_row_each PyStr.ascii_lower remove_dups
            Example.directory Example.no_gmaps
            [Example.total; Example.uk; Example.rektorat] None Example.start).
  vm_compute. reflexivity.
Defined.


(** ** The resolver: which requests it sends *)

Section ResolverRequests.

Variable nominatim : world → string → response * Q.

Lemma get_locations_loop addresses keep w :
  ∃ r,
    for_each (locate nominatim) ∅ addresses w
    = (r, (get_locations nominatim addresses keep w).2) ∧
    (∀ e, r = Raise e ↔ (get_locations nominatim addresses keep w).1 = Raise e).
Proof.
  destruct keep.
  - rewrite get_locations_true.
    destruct (for_each _ _ _ _) as [[places|e] w1];
      eexists; (split; [reflexivity|]); by intros ?.
  - rewrite get_locations_false.
    destruct (for_each _ _ _ _) as [[places|e] w1];
      eexists; (split; [reflexivity|]); intros ?; cbn; split; congruence.
Qed.

(** In either mode and for any list, the requests of a run are for keys
    of the list and follow the order of the list: a key is asked at most
    as often as it occurs. *)
Theorem get_locations_requests_in_order addresses keep w :
  ∃ new,
    sent (get_locations nominatim addresses keep w).2 = sent w ++ new ∧
    sublist (query <$> new) addresses.
Proof.
  destruct (get_locations_loop addresses keep w) as (r & Hrun & _).
  destruct (for_each_locate _ _ _ _ _ _ Hrun) as (new & Hsent & Hsub & _).
  by exists new.
Qed.

(** A run over fresh, distinct keys asks each key once, in order; an
    interrupted run stops with the interrupted request. *)
Lemma for_each_locate_distinct addrs : ∀ (places : gmap string (option Location.t)) w r w',
  NoDup addrs → (∀ a, a ∈ addrs → places !! a = None) →
  for_each (locate nominatim) places addrs w = (r, w') →
  ∃ new,
    sent w' = sent w ++ new ∧
    match r with
    | Ok _ => query <$> new = addrs
    | Raise _ =>
        ∃ k, query <$> new = take (S k) addrs ∧ (k < length addrs)%nat ∧
             outcome <$> last new = Some Interrupted
    end.
Proof.
  induction addrs as [|addr rest IH]; intros places w r w' Hnd Hfresh.
  - intros [= <- <-]. exists []. by rewrite app_nil_r.
  - cbn [for_each]. unfold mbind at 1, M_bind at 1.
    apply NoDup_cons in Hnd as [Hnotin Hnd].
    destruct (nominatim w addr) as [resp took] eqn:Hresp.
    rewrite (locate_unknown _ _ _ _ _ _ (Hfresh addr ltac:(by left)) Hresp).
    set (rq1 := Request (now w) addr resp).
    assert (∀ w1 (places1 : gmap string (option Location.t)),
              sent w1 = sent w ++ [rq1] →
              (∀ a, a ∈ rest → places1 !! a = None) →
              for_each (locate nominatim) places1 rest w1 = (r, w') →
              ∃ new,
                sent w' = sent w ++ new ∧
                match r with
                | Ok _ => query <$> new = addr :: rest
                | Raise _ =>
                    ∃ k, query <$> new = take (S k) (addr :: rest) ∧
                         (k < length (addr :: rest))%nat ∧
                         outcome <$> last new = Some Interrupted
                end) as Hglue.
    { intros w1 places1 Hsent1 Hfresh1 Hrest.
      destruct (IH _ _ _ _ Hnd Hfresh1 Hrest) as (new & Hsent & Hr).
      exists (rq1 :: new). split; [by rewrite Hsent, Hsent1, <-app_assoc|].
      destruct r as [places'|e].
      - by rewrite fmap_cons, Hr.
      - destruct Hr as (k & Hq & Hk & Hlast). exists (S k).
        split_and!; [by rewrite fmap_cons, Hq|cbn; lia|].
        destruct new as [|rq new]; [done|]. by rewrite last_cons_cons. }
    destruct resp as [coords| |].
    + apply Hglue; [by rewrite sent_after_answer|].
      intros a Ha. rewrite lookup_insert_ne; [apply Hfresh; by right|].
      intros <-. done.
    + apply Hglue; [done|]. intros a Ha. apply Hfresh. by right.
    + intros [= <- <-]. exists [rq1]. split; [done|].
      exists 0%nat. split_and!; [done|cbn; lia|done].
Qed.

(** On distinct keys, in either mode, a run that returns has sent one
    request for each key, in the order of the list; a run that a
    [KeyboardInterrupt] ends has sent the requests for the keys up to the
    interrupted one and no other. *)
Theorem get_locations_one_request_each addresses keep w :
  NoDup addresses →
  ∃ new,
    sent (get_locations nominatim addresses keep w).2 = sent w ++ new ∧
    match (get_locations nominatim addresses keep w).1 with
    | Ok _ => query <$> new = addresses
    | Raise _ =>
        ∃ k, query <$> new = take (S k) addresses ∧ (k < length addresses)%nat ∧
             outcome <$> last new = Some Interrupted
    end.
Proof.
  intros Hnd. destruct (get_locations_loop addresses keep w) as (r & Hrun & Hr).
  destruct (for_each_locate_distinct _ _ _ _ _ Hnd (λ a _, lookup_empty a) Hrun)
    as (new & Hsent & Hnew).
  exists new. split; [done|].
  destruct (get_locations nominatim addresses keep w).1 as [result|e] eqn:Hres.
  - destruct r as [places|e]; [done|].
    pose proof (proj1 (Hr e) eq_refl) as Hno. discriminate Hno.
  - pose proof (proj2 (Hr e) eq_refl) as ->. done.
Qed.

(** Once a request for a key is answered, with a hit or with none, no
    later request of the run is for that key. *)
Lemma for_each_locate_once addrs : ∀ (places : gmap string (option Location.t)) w r w',
  for_each (locate nominatim) places addrs w = (r, w') →
  ∃ new,
    sent w' = sent w ++ new ∧
    ∀ i j r1 r2 coords, (i < j)%nat →
      new !! i = Some r1 → new !! j = Some r2 →
      outcome r1 = Answered coords → query r2 ≠ query r1.
Proof.
  induction addrs as [|addr rest IH]; intros places w r w'.
  - intros [= <- <-]. exists []. rewrite app_nil_r. split; [done|].
    by intros ? ? ? ? ? ? ?.
  - cbn [for_each]. unfold mbind at 1, M_bind at 1.
    destruct (places !! addr) as [known|] eqn:Hplaces.
    { rewrite locate_known by (by rewrite Hplaces). apply IH. }
    destruct (nominatim w addr) as [resp took] eqn:Hresp.
    rewrite (locate_unknown _ _ _ _ _ _ Hplaces Hresp).
    set (rq1 := Request (now w) addr resp).
    assert (∀ w1 (places1 : gmap string (option Location.t)),
              sent w1 = sent w ++ [rq1] →
              (∀ coords, resp = Answered coords → is_Some (places1 !! addr)) →
              for_each (locate nominatim) places1 rest w1 = (r, w') →
              ∃ new,
                sent w' = sent w ++ new ∧
                ∀ i j r1 r2 coords, (i < j)%nat →
                  new !! i = Some r1 → new !! j = Some r2 →
                  outcome r1 = Answered coords → query r2 ≠ query r1) as Hglue.
    { intros w1 places1 Hsent1 Hknown Hrest.
      destruct (IH _ _ _ _ Hrest) as (new & Hsent & Hpairs).
      destruct (for_each_locate _ _ _ _ _ _ Hrest) as (new' & Hsent' & _ & Hfresh & _).
      assert (new' = new) as -> by (apply (app_inv_head (sent w1)); congruence).
      exists (rq1 :: new). split; [by rewrite Hsent, Hsent1, <-app_assoc|].
      intros [|i] [|j] r1 r2 coords Hij; cbn; try lia.
      - intros [= <-] Hr2 Ho Hq. cbn in Ho, Hq.
        destruct (Hknown _ Ho) as [c Hc].
        apply list_elem_of_lookup_2, Hfresh in Hr2. congruence.
      - apply Hpairs. lia. }
    destruct resp as [coords| |].
    + apply Hglue; [by rewrite sent_after_answer|].
      intros c _. rewrite lookup_insert_eq. by eexists.
    + by apply Hglue.
    + intros [= <- <-]. exists [rq1]. split; [done|].
      intros [|i] [|j] r1 r2 coords Hij; cbn; try lia; by intros ? ?.
Qed.

(** In either mode and for any list, a key that was answered, with a hit
    or with none, is not asked again in the run. *)
Theorem get_locations_answered_once addresses keep w :
  ∃ new,
    sent (get_locations nominatim addresses keep w).2 = sent w ++ new ∧
    ∀ i j r1 r2 coords, (i < j)%nat →
      new !! i = Some r1 → new !! j = Some r2 →
      outcome r1 = Answered coords → query r2 ≠ query r1.
Proof.
  destruct (get_locations_loop addresses keep w) as (r & Hrun & _).
  by apply for_each_locate_once in Hrun.
Qed.

End ResolverRequests.

Lemma get_locations_one_request_each_witness :
  ∃ new,
    sent (get_locations Example.directory
            ["Czech Republic"; "Univerzita Karlova"; "Rektorat"] true
            Example.start).2
    = sent Example.start ++ new ∧
    query <$> new = ["Czech Republic"; "Univerzita Karlova"; "Rektorat"].
Proof.
  destruct (get_locations_one_request_each Example.directory
              ["Czech Republic"; "Univerzita Karlova"; "Rektorat"] true
              Example.start) as (new & Hsent & Hnew).
  - apply (bool_decide_unpack _). reflexivity.
  - exists new. split; [done|]. exact Hnew.
Defined.

(** ** The resolver: how long a run takes *)


Section Duration.

Variable nominatim : world → string → response * Q.

Hypothesis took_nonneg : ∀ w addr, (0 <= (nominatim w addr).2)%Q.



End Duration.




(** ** The table of a detail page: what leaves the function *)

Lemma lookup_selected raw_tables raw :
  raw_tables !! (if bool_decide (length raw_tables = 3%nat) then 2%nat else 3%nat)
  = Some raw →
  selected raw_tables raw.
Proof. unfold selected. case_bool_decide; [by left|by right]. Qed.

Section ParseTableResults.

Variable read_html : string → res (list data_frame).

(** The function never raises [ValueError]: an exception that leaves it
    is either the exception [pd.read_html] raised, or the [IndexError] of
    a page whose tables were read. *)
Theorem parse_table_details_exceptions page_source e :
  parse_table_details read_html page_source = Raise e →
  e ≠ ValueError ∧
  (read_html page_source = Raise e ∨
   e = IndexError ∧ ∃ raw_tables, read_html page_source = Ok raw_tables).
Proof.
  rewrite parse_table_details_cases.
  destruct (read_html page_source) as [raw_tables|e'] eqn:Hread.
  - assert (∀ r : res data_frame, r = Raise e →
              (r = Raise IndexError ∨ ∃ table, r = Ok table) →
              e ≠ ValueError ∧
              (@Ok (list data_frame) raw_tables = Raise e ∨
               e = IndexError ∧
               ∃ raw_tables', @Ok (list data_frame) raw_tables = Ok raw_tables'))
      as Hcase.
    { intros r -> [[= ->]|[table [=]]]. split; [done|]. right. by eauto. }
    intros Hraise. apply (Hcase _ Hraise).
    destruct (raw_tables !! _) as [raw|]; [|by left].
    destruct (rows (dropna_all raw)) as [|[label header] rest]; [by left|].
    right. by eexists.
  - destruct e'; intros [= <-]; (split; [done|by left]).
Qed.

(** A returned table is empty when [pd.read_html] raised [ValueError];
    otherwise its column labels are a row of the selected table that is
    not all NaN, and its rows are rows of the selected table that are not
    all NaN and do not carry the index label of that header row. *)
Theorem parse_table_details_rows page_source table :
  parse_table_details read_html page_source = Ok table →
  (read_html page_source = Raise ValueError ∧ table = empty_frame) ∨
  (∃ raw_tables raw label,
     read_html page_source = Ok raw_tables ∧
     selected raw_tables raw ∧
     (label, columns table) ∈ rows raw ∧
     forallb is_nan (columns table) = false ∧
     ∀ r, r ∈ rows table →
       r ∈ rows raw ∧ forallb is_nan r.2 = false ∧ r.1 ≠ label).
Proof.
  rewrite parse_table_details_cases.
  destruct (read_html page_source) as [raw_tables|e] eqn:Hread.
  - destruct (raw_tables !! _) as [raw|] eqn:Hraw; [|done].
    apply lookup_selected in Hraw.
    destruct (rows (dropna_all raw)) as [|[label header] rest] eqn:Hrows; [done|].
    intros [= <-]. right. exists raw_tables, raw, label. cbn [columns rows].
    assert (∀ r, r ∈ (label, header) :: rest →
              r ∈ rows raw ∧ forallb is_nan r.2 = false) as Hdata.
    { intros r Hr. rewrite <-Hrows in Hr. unfold dropna_all in Hr. cbn in Hr.
      by apply list_elem_of_filter in Hr as [? ?]. }
    destruct (Hdata (label, header) ltac:(by left)) as [Hin Hheader].
    split_and!; [done..|].
    intros r [Hlabel Hr]%list_elem_of_filter.
    destruct (Hdata r ltac:(by right)) as [? ?]. done.
  - destruct e; intros [=]. by left.
Qed.

End ParseTableResults.

Lemma parse_table_details_raises_witness :
  parse_table_details Example.read_html "two" = Raise IndexError.
Proof.
  apply (parse_table_details_raises Example.read_html "two"
           [Example.layout; Example.layout]); [reflexivity|].
  left. cbn. lia.
Defined.

Lemma parse_table_details_exceptions_witness :
  IndexError ≠ ValueError ∧
  (Example.read_html "two" = Raise IndexError ∨
   IndexError = IndexError ∧
   ∃ raw_tables, Example.read_html "two" = Ok raw_tables).
Proof.
  apply (parse_table_details_exceptions Example.read_html "two" IndexError).
  reflexivity.
Defined.

Lemma parse_table_details_rows_witness :
  (Example.read_html "none" = Raise ValueError ∧ empty_frame = empty_frame) ∨
  (∃ raw_tables raw label,
     Example.read_html "none" = Ok raw_tables ∧
     selected raw_tables raw ∧
     (label, columns empty_frame) ∈ rows raw ∧
     forallb is_nan (columns empty_frame) = false ∧
     ∀ r, r ∈ rows empty_frame →
       r ∈ rows raw ∧ forallb is_nan r.2 = false ∧ r.1 ≠ label).
Proof.
  apply (parse_table_details_rows Example.read_html "none" empty_frame).
  reflexivity.
Defined.

(** ** [get_universities] with the Google Maps client *)

Section PaidMode.

Variable lower : string → string.
Variable list_set : list string → list string.
Variable nominatim : world → string → response * Q.
Variable gmaps_geocode : string → string → res (list gcode).

(** [list(set(..))] keeps the elements and repeats none. *)
Hypothesis list_set_NoDup : ∀ l, NoDup (list_set l).
Hypothesis elem_of_list_set : ∀ l x, x ∈ list_set l ↔ x ∈ l.

(** The row of [places] a name gets: one row from its first hit, or none. *)
Definition gmaps_found (key name : string) : list place_row :=
  match gmaps_geocode key name with
  | Ok (gcode :: _) =>
      [PlaceRow name (formatted_address gcode) (MkPoint (lng gcode) (lat gcode))]
  | _ => []
  end.

Lemma gmaps_places_Ok key names places :
  gmaps_places gmaps_geocode key names = Ok places →
  places = names ≫= gmaps_found key ∧
  ∀ name, name ∈ names → ∃ gcodes, gmaps_geocode key name = Ok gcodes.
Proof.
  revert places. induction names as [|name rest IH]; intros places.
  - intros [= <-]. split; [done|]. by intros ? ?%elem_of_nil.
  - cbn [gmaps_places]. unfold mbind at 1, res_bind at 1.
    destruct (gmaps_geocode key name) as [gcodes|e] eqn:Hname; [|done].
    unfold mbind at 1, res_bind at 1.
    destruct (gmaps_places gmaps_geocode key rest) as [places'|e]; [|done].
    intros [= <-]. destruct (IH _ eq_refl) as [-> Hall]. split.
    + cbn [mbind list_bind]. unfold gmaps_found at 2. rewrite Hname.
      by destruct gcodes.
    + intros n [->|Hn]%elem_of_cons; [by eexists|by apply Hall].
Qed.

Lemma filter_gmaps_found key names k :
  NoDup names →
  filter (λ p, place_full_name p = k) (names ≫= gmaps_found key)
  = if decide (k ∈ names) then gmaps_found key k else [].
Proof.
  assert (∀ name, filter (λ p, place_full_name p = k) (gmaps_found key name)
                  = if decide (name = k) then gmaps_found key name else [])
    as Hone.
  { intros name. unfold gmaps_found.
    destruct (gmaps_geocode key name) as [[|gcode ?]|]; try by destruct (decide _).
    rewrite filter_cons, filter_nil. cbn [place_full_name].
    by destruct (decide (name = k)). }
  induction names as [|name rest IH]; intros Hnd; [done|].
  apply NoDup_cons in Hnd as [Hnotin Hnd].
  cbn [mbind list_bind]. rewrite filter_app, Hone, (IH Hnd).
  destruct (decide (name = k)) as [->|Hne].
  - destruct (decide (k ∈ rest)); [done|].
    destruct (decide (k ∈ k :: rest)) as [_|Hno];
      [by rewrite app_nil_r|destruct Hno; by left].
  - destruct (decide (k ∈ rest)) as [Hin|Hout];
      destruct (decide (k ∈ name :: rest)) as [Hin'|Hout']; try done.
    + destruct Hout'. by right.
    + by apply elem_of_cons in Hin' as [->|?].
Qed.

Lemma merge_left_gmaps key names rows :
  NoDup names →
  (∀ l, l ∈ rows → full_name l ≠ "" → full_name l ∈ names) →
  entity <$> merge_left rows (names ≫= gmaps_found key) = rows ∧
  ∀ row, row ∈ merge_left rows (names ≫= gmaps_found key) →
    full_name (entity row) ≠ "" →
    match gmaps_geocode key (full_name (entity row)) with
    | Ok (gcode :: _) =>
        address row = Some (formatted_address gcode) ∧
        geometry row = Some (MkPoint (lng gcode) (lat gcode))
    | _ => address row = None ∧ geometry row = None
    end.
Proof.
  intros Hnd. unfold merge_left.
  induction rows as [|l rows IH]; intros Hnames;
    [by split; [|intros ? ?%elem_of_nil]|].
  destruct IH as [IHentity IHrows]; [intros ? ?; apply Hnames; by right|].
  cbn [mbind list_bind]. rewrite (filter_gmaps_found _ _ _ Hnd).
  rewrite fmap_app, IHentity. split.
  - change (l :: rows) with ([l] ++ rows). f_equal.
    destruct (decide (full_name l ∈ names)); [|done].
    unfold gmaps_found. by destruct (gmaps_geocode key (full_name l)) as [[|? ?]|].
  - intros row [Hrow|Hrow]%elem_of_app Hne; [|by apply IHrows].
    destruct (decide (full_name l ∈ names)) as [Hin|Hout].
    + unfold gmaps_found in Hrow.
      destruct (gmaps_geocode key (full_name l)) as [[|gcode ?]|] eqn:Hhit;
        cbn in Hrow; apply list_elem_of_singleton in Hrow as ->; cbn;
        by rewrite Hhit.
    + apply list_elem_of_singleton in Hrow as ->. cbn in Hne |- *.
      destruct Hout. apply Hnames; [by left|done].
Qed.

(** With the Google Maps client, the returned table has the rows of the
    sheet that are not indicator rows; a row with a search name that is
    not empty gets the address and the point of the first hit for its
    name, and a row whose name has no hit gets neither: the default point
    is not used in this mode. *)
Theorem get_universities_paid_mode uni_counts key w result w' :
  get_universities lower list_set nominatim gmaps_geocode uni_counts true
    (Some key) w = (Ok result, w') →
  ∃ table,
    walk lower uni_counts = Ok table ∧
    entity <$> result = drop_indicators table ∧
    ∀ row, row ∈ result → full_name (entity row) ≠ "" →
      match gmaps_geocode key (full_name (entity row)) with
      | Ok (gcode :: _) =>
          address row = Some (formatted_address gcode) ∧
          geometry row = Some (MkPoint (lng gcode) (lat gcode))
      | _ => address row = None ∧ geometry row = None
      end.
Proof.
  unfold get_universities, mbind at 1, M_bind at 1, lift.
  destruct (walk lower uni_counts) as [table|e]; [|done].
  unfold mbind at 1, M_bind at 1.
  destruct (get_locations nominatim _ false w) as [[geoplaces|e] w1]; [|done].
  unfold mbind at 1, M_bind at 1, subscript. cbv [locations] in *.
  destruct (geoplaces !! "Czech Republic") as [default_point|]; [|done].
  unfold mbind at 1, M_bind at 1.
  destruct (gmaps_places gmaps_geocode key _) as [places|e] eqn:Hplaces; [|done].
  intros [= <- <-]. apply gmaps_places_Ok in Hplaces as [-> _].
  exists table. split; [done|].
  apply merge_left_gmaps; [apply list_set_NoDup|].
  intros l Hl Hne. apply elem_of_list_set, list_elem_of_filter.
  split; [done|]. by apply list_elem_of_fmap_2.
Qed.

End PaidMode.

Lemma get_universities_paid_mode_witness :
  ∃ table,
    walk PyStr.ascii_lower [Example.uk; Example.rektorat] = Ok table ∧
    entity <$> Sample.paid = drop_indicators table ∧
    ∀ row, row ∈ Sample.paid → full_name (entity row) ≠ "" →
      match Sample.gmaps "key" (full_name (entity row)) with
      | Ok (gcode :: _) =>
          address row = Some (formatted_address gcode) ∧
          geometry row = Some (MkPoint (lng gcode) (lat gcode))
      | _ => address row = None ∧ geometry row = None
      end.
Proof.
  eapply (get_universities_paid_mode PyStr.ascii_lower remove_dups
            Example.directory Sample.gmaps
            (NoDup_remove_dups) (elem_of_remove_dups)
            [Example.uk; Example.rektorat] "key" Example.start).
  vm_compute. reflexivity.
Defined.

(** ** Chunks of balanced size *)

(** For a positive number of chunks, the chunks make up the list and
    their sizes never grow along the chunks nor differ by more than one. *)
Theorem get_chunks_balanced {A} (values : list A) (n : Z) :
  0 < n →
  ∃ args,
    get_chunks values n = Ok args ∧
    length (chunks_of args) = Z.to_nat n ∧
    concat (chunks_of args) = values ∧
    ∀ i j ci cj, (i ≤ j)%nat →
      chunks_of args !! i = Some ci → chunks_of args !! j = Some cj →
      (length cj ≤ length ci ≤ length cj + 1)%nat.
Proof.
  intros Hn.
  destruct (get_chunks_partition values n Hn)
    as (args & Hget & Hlen & Hchunk & Hconcat).
  set (k := Z.of_nat (length values) `div` n) in *.
  set (m := Z.of_nat (length values) `mod` n) in *.
  assert (∀ i c, chunks_of args !! i = Some c →
            Z.of_nat (length c) = k + (if bool_decide (Z.of_nat i < m) then 1 else 0))
    as Hsize.
  { intros i c Hc.
    assert (∀ (l : list (list (list A))) i c,
              (∀ j arg, l !! j = Some arg → ∃ chunk, arg = [chunk]) →
              concat l !! i = Some c → l !! i = Some [c]) as Hsingle.
    { clear. induction l as [|arg l IH]; intros i c Hl; [done|].
      destruct (Hl 0%nat arg eq_refl) as [chunk ->]. destruct i as [|i]; cbn.
      - by intros [= ->].
      - apply IH. intros j. apply (Hl (S j)). }
    apply Hsingle in Hc.
    - destruct (Hchunk _ _ Hc) as (chunk & [= <-] & _ & Hlength). done.
    - intros j arg Harg. destruct (Hchunk _ _ Harg) as (chunk & -> & _).
      by eexists. }
  exists args. split_and!; [done| |done|].
  - rewrite <-Hlen. unfold chunks_of. clear -Hchunk.
    assert (∀ j arg, args !! j = Some arg → ∃ chunk : list A, arg = [chunk])
      as Hone.
    { intros j arg Harg. destruct (Hchunk _ _ Harg) as (chunk & -> & _).
      by eexists. }
    clear Hchunk. induction args as [|arg args IH]; [done|].
    destruct (Hone 0%nat arg eq_refl) as [chunk ->]. cbn. f_equal.
    apply IH. intros j. apply (Hone (S j)).
  - intros i j ci cj Hij Hi Hj.
    apply Hsize in Hi. apply Hsize in Hj.
    repeat case_bool_decide; lia.
Qed.

Lemma get_chunks_balanced_witness :
  ∃ args,
    get_chunks ["a"; "b"; "c"; "d"; "e"] 3 = Ok args ∧
    length (chunks_of args) = 3%nat ∧
    concat (chunks_of args) = ["a"; "b"; "c"; "d"; "e"] ∧
    ∀ i j ci cj, (i ≤ j)%nat →
      chunks_of args !! i = Some ci → chunks_of args !! j = Some cj →
      (length cj ≤ length ci ≤ length cj + 1)%nat.
Proof. apply (get_chunks_balanced ["a"; "b"; "c"; "d"; "e"] 3). lia. Defined.

(** ** The entries and the plan of the scraping *)

Lemma elem_of_product {A B} (xs : list A) (ys : list B) x y :
  (x, y) ∈ product xs ys ↔ x ∈ xs ∧ y ∈ ys.
Proof.
  unfold product. rewrite list_elem_of_bind. split.
  - intros (x' & Hin & Hx). apply list_elem_of_fmap in Hin as (y' & [= -> ->] & Hy).
    done.
  - intros [Hx Hy]. exists x. split; [|done]. by apply list_elem_of_fmap_2.
Qed.

Lemma length_product {A B} (xs : list A) (ys : list B) :
  length (product xs ys) = (length xs * length ys)%nat.
Proof.
  unfold product. induction xs as [|x xs IH]; [done|].
  cbn [mbind list_bind]. rewrite length_app, length_fmap, IH. done.
Qed.

Lemma NoDup_product {A B} (xs : list A) (ys : list B) :
  NoDup xs → NoDup ys → NoDup (product xs ys).
Proof.
  intros Hxs Hys. unfold product. apply NoDup_bind; [|intros x _|done].
  - intros x1 x2 [x y] _ _.
    intros (? & [= -> ->] & _)%list_elem_of_fmap.
    by intros (? & [= -> ->] & _)%list_elem_of_fmap.
  - apply (NoDup_fmap_2 _). done.
Qed.

Section EntriesFacts.

Variable open_form : res ().
Variable option_texts : string → res (list string).
Variable shuffle : list (string * string) → list (string * string).

(** [random.shuffle] rearranges, and neither drops nor repeats. *)
Hypothesis shuffle_Permutation : ∀ entries, shuffle entries ≡ₚ entries.

(** The entries are the pairs of a school type and a region whose texts
    are not empty, once each for options without repetition, and as many
    as the product of the two numbers of such texts. *)
Theorem get_entries_pairs entries :
  get_entries open_form option_texts = Ok entries →
  ∃ regions school_types,
    option_texts "ctl39" = Ok regions ∧
    option_texts "ctl38" = Ok school_types ∧
    (∀ stype reg, (stype, reg) ∈ entries ↔
       (stype ∈ school_types ∧ stype ≠ "") ∧ (reg ∈ regions ∧ reg ≠ "")) ∧
    length entries
    = (length (filter (λ text, text ≠ "") school_types)
       * length (filter (λ text, text ≠ "") regions))%nat ∧
    (NoDup school_types → NoDup regions → NoDup entries).
Proof.
  unfold get_entries, nonempty_texts.
  destruct open_form; [|done].
  destruct (option_texts "ctl39") as [regions|]; [|done].
  destruct (option_texts "ctl38") as [school_types|]; [|done].
  intros [= <-]. exists regions, school_types. split_and!; [done..| | |].
  - intros stype reg. rewrite elem_of_product, !list_elem_of_filter. tauto.
  - apply length_product.
  - intros Htypes Hregions. by apply NoDup_product; apply NoDup_filter.
Qed.

(** With a positive number of processes the plan has that many argument
    lists, each with one chunk, and the chunks together hold every entry
    once: they are a rearrangement of the entries. *)
Theorem scraping_plan_covers entries processes :
  0 < processes →
  get_entries open_form option_texts = Ok entries →
  ∃ args,
    scraping_plan open_form option_texts shuffle processes = Ok args ∧
    length args = Z.to_nat processes ∧
    (∀ arg, arg ∈ args → ∃ chunk, arg = [chunk]) ∧
    concat (chunks_of args) ≡ₚ entries.
Proof.
  intros Hpos Hentries. unfold scraping_plan. rewrite Hentries.
  destruct (get_chunks_partition (shuffle entries) processes Hpos)
    as (args & Hget & Hlen & Hchunk & Hconcat).
  exists args. split_and!; [done..| |].
  - intros arg (i & Hi)%list_elem_of_lookup.
    destruct (Hchunk _ _ Hi) as (chunk & -> & _). by eexists.
  - by rewrite Hconcat.
Qed.

End EntriesFacts.

Lemma get_entries_pairs_witness :
  ∃ regions school_types,
    Sample.option_texts "ctl39" = Ok regions ∧
    Sample.option_texts "ctl38" = Ok school_types ∧
    (∀ stype reg,
       (stype, reg) ∈ product ["A00"; "B00"; "C00"] ["Praha"; "Brno"] ↔
       (stype ∈ school_types ∧ stype ≠ "") ∧ (reg ∈ regions ∧ reg ≠ "")) ∧
    length (product ["A00"; "B00"; "C00"] ["Praha"; "Brno"])
    = (length (filter (λ text, text ≠ "") school_types)
       * length (filter (λ text, text ≠ "") regions))%nat ∧
    (NoDup school_types → NoDup regions →
     NoDup (product ["A00"; "B00"; "C00"] ["Praha"; "Brno"])).
Proof.
  apply (get_entries_pairs (Ok ()) Sample.option_texts). reflexivity.
Defined.

Lemma scraping_plan_covers_witness :
  ∃ args,
    scraping_plan (Ok ()) Sample.option_texts reverse 4 = Ok args ∧
    length args = Z.to_nat 4 ∧
    (∀ arg, arg ∈ args → ∃ chunk, arg = [chunk]) ∧
    concat (chunks_of args) ≡ₚ product ["A00"; "B00"; "C00"] ["Praha"; "Brno"].
Proof.
  apply (scraping_plan_covers (Ok ()) Sample.option_texts reverse).
  - apply reverse_Permutation.
  - lia.
  - reflexivity.
Defined.

(** ** The address column *)

Lemma string_app_cons (x : ascii) (a b : string) :
  String x a +:+ b = String x (a +:+ b).
Proof. done. Qed.

Lemma string_app_nil (b : string) : "" +:+ b = b.
Proof. done. Qed.

Lemma string_app_assoc (a b c : string) : (a +:+ b) +:+ c = a +:+ (b +:+ c).
Proof.
  induction a as [|x a IH]; [done|]. by rewrite !string_app_cons, IH.
Qed.

Lemma string_app_length (a b : string) :
  String.length (a +:+ b) = (String.length a + String.length b)%nat.
Proof.
  induction a as [|x a IH]; [done|]. rewrite string_app_cons. cbn. by rewrite IH.
Qed.

Lemma strip_prefix_Some (p s rest : string) :
  strip_prefix p s = Some rest ↔ s = p +:+ rest.
Proof.
  revert s. induction p as [|a p IH]; intros s; cbn.
  - split; [by intros [= ->]|by intros ->].
  - destruct s as [|b s]; [done|].
    destruct (Ascii.eqb a b) eqn:Hab.
    + apply Ascii.eqb_eq in Hab as ->. rewrite IH.
      split; [by intros ->|by intros [= ->]].
    + split; [done|]. intros [= -> _]. by rewrite Ascii.eqb_refl in Hab.
Qed.

(** The text after the city and its comma. *)
Definition street_part (row : address_parts) : string :=
  match Ulice row with None => "" | Some ulice => " " +:+ ulice end
  +:+ match Cp row with None => "" | Some cp => " " +:+ cp end
  +:+ match Co row with None => "" | Some co => "/" +:+ co end.

Lemma glue_address_Ok row obec :
  Obec row = Some obec →
  glue_address row = Ok (obec +:+ "," +:+ street_part row).
Proof.
  intros Hobec. unfold glue_address, street_part. rewrite Hobec.
  by rewrite !string_app_assoc.
Qed.

(** The digits 0-9 only. *)
Fixpoint ascii_digits (s : string) : bool :=
  match s with
  | EmptyString => true
  | String a s' =>
      match ascii_decimal_digit (String a "") with
      | Some _ => ascii_digits s'
      | None => false
      end
  end.

Section DistrictsFacts.

Variable decimal_digit : string → option string.

(** [\\d] matches one character, which is not empty. *)
Hypothesis decimal_digit_rest : ∀ s rest,
  decimal_digit s = Some rest → ∃ c, c ≠ "" ∧ s = c +:+ rest.

(** On an ASCII character [\\d] matches the digits 0-9 only. *)
Hypothesis decimal_digit_ascii : ∀ a s,
  (nat_of_ascii a < 128)%nat →
  decimal_digit (String a s) = ascii_decimal_digit (String a s).

Lemma sub_districts_S fuel s :
  sub_districts decimal_digit (S fuel) s =
  match strip_prefix "Praha " s ≫= decimal_digit with
  | Some rest =>
      "Praha" +:+ sub_districts decimal_digit fuel
                    (skip_digits decimal_digit (String.length rest) rest)
  | None =>
      match s with
      | EmptyString => EmptyString
      | String c s' => String c (sub_districts decimal_digit fuel s')
      end
  end.
Proof. done. Qed.

Lemma decimal_digit_length s rest :
  decimal_digit s = Some rest → (String.length rest < String.length s)%nat.
Proof.
  intros (c & Hc & ->)%decimal_digit_rest. rewrite string_app_length.
  destruct c; [done|]. cbn. lia.
Qed.

Lemma skip_digits_length fuel s :
  (String.length (skip_digits decimal_digit fuel s) ≤ String.length s)%nat.
Proof.
  revert s. induction fuel as [|fuel IH]; intros s; cbn; [done|].
  destruct (decimal_digit s) as [rest|] eqn:Hd; [|done].
  apply decimal_digit_length in Hd. specialize (IH rest). lia.
Qed.

Lemma match_district s rest :
  strip_prefix "Praha " s ≫= decimal_digit = Some rest →
  (String.length rest + 7 ≤ String.length s)%nat.
Proof.
  destruct (strip_prefix "Praha " s) as [after|] eqn:Hp; [|done]. cbn.
  apply strip_prefix_Some in Hp as ->. intros Hd%decimal_digit_length.
  rewrite string_app_length. cbn. lia.
Qed.

(** More positions than characters change nothing. *)
Lemma sub_districts_fuel n : ∀ m s,
  (String.length s ≤ n)%nat → (String.length s ≤ m)%nat →
  sub_districts decimal_digit n s = sub_districts decimal_digit m s.
Proof.
  induction n as [|n IH]; intros m s Hn Hm.
  - destruct s; [|cbn in Hn; lia]. by destruct m.
  - destruct m as [|m]; [destruct s; [done|cbn in Hm; lia]|].
    rewrite !sub_districts_S.
    destruct (strip_prefix "Praha " s ≫= decimal_digit) as [rest|] eqn:Hmatch.
    + apply match_district in Hmatch. f_equal.
      pose proof (skip_digits_length (String.length rest) rest).
      apply IH; lia.
    + destruct s as [|c s]; [done|]. f_equal. cbn in Hn, Hm. apply IH; lia.
Qed.

Lemma sub_districts_replace fuel s :
  (String.length s ≤ fuel)%nat →
  sub_districts decimal_digit fuel s = replace_districts decimal_digit s.
Proof. intros Hfuel. by apply sub_districts_fuel. Qed.

(** The replacement never makes an address longer. *)
Lemma sub_districts_length fuel : ∀ s,
  (String.length (sub_districts decimal_digit fuel s) ≤ String.length s)%nat.
Proof.
  induction fuel as [|fuel IH]; intros s; [done|]. rewrite sub_districts_S.
  destruct (strip_prefix "Praha " s ≫= decimal_digit) as [rest|] eqn:Hmatch.
  - apply match_district in Hmatch. rewrite string_app_length.
    pose proof (skip_digits_length (String.length rest) rest).
    specialize (IH (skip_digits decimal_digit (String.length rest) rest)).
    cbn. lia.
  - destruct s as [|c s]; [done|]. cbn. specialize (IH s). lia.
Qed.

(** An address in which 'Praha ' does not occur stays as it is. *)
Lemma sub_districts_other fuel : ∀ s,
  PyStr.contains "Praha " s = false → sub_districts decimal_digit fuel s = s.
Proof.
  induction fuel as [|fuel IH]; intros s Hno; [done|]. rewrite sub_districts_S.
  destruct (strip_prefix "Praha " s) as [after|] eqn:Hp.
  - apply strip_prefix_Some in Hp as ->.
    assert (PyStr.contains "Praha " ("Praha " +:+ after) = true) as Hyes.
    { apply contains_iff. by exists "", after. }
    congruence.
  - cbn. destruct s as [|c s]; [done|]. f_equal. apply IH.
    cbn [PyStr.contains] in Hno. by apply orb_false_iff in Hno as [_ ?].
Qed.

Lemma ascii_digits_cons d ds :
  ascii_digits (String d ds) = true →
  ascii_digits ds = true ∧ ∀ rest, decimal_digit (String d rest) = Some rest.
Proof.
  cbn [ascii_digits]. unfold ascii_decimal_digit.
  destruct ((48 <=? nat_of_ascii d)%nat && (nat_of_ascii d <=? 57)%nat)
    eqn:Hrange; [|done].
  intros Hds. split; [done|]. intros rest.
  rewrite decimal_digit_ascii.
  - unfold ascii_decimal_digit. by rewrite Hrange.
  - apply andb_true_iff in Hrange as [_ Hle%Nat.leb_le]. lia.
Qed.

Lemma skip_digits_ascii ds : ∀ fuel tail,
  ascii_digits ds = true → decimal_digit tail = None →
  (String.length ds ≤ fuel)%nat →
  skip_digits decimal_digit fuel (ds +:+ tail) = tail.
Proof.
  induction ds as [|d ds IH]; intros fuel tail Hds Htail Hfuel.
  - rewrite string_app_nil. destruct fuel; [done|].
    cbn [skip_digits]. by rewrite Htail.
  - destruct fuel as [|fuel]; [cbn in Hfuel; lia|].
    apply ascii_digits_cons in Hds as [Hds Hd].
    rewrite string_app_cons. cbn [skip_digits]. rewrite Hd.
    apply IH; [done..|]. cbn in Hfuel. lia.
Qed.

Lemma replace_districts_other_char c s :
  Ascii.eqb "P" c = false →
  replace_districts decimal_digit (String c s)
  = String c (replace_districts decimal_digit s).
Proof.
  intros Hc. unfold replace_districts. cbn [String.length].
  rewrite sub_districts_S. cbn [strip_prefix]. by rewrite Hc.
Qed.

Lemma replace_district ds tail :
  ds ≠ "" → ascii_digits ds = true → decimal_digit tail = None →
  replace_districts decimal_digit ("Praha " +:+ ds +:+ tail)
  = "Praha" +:+ replace_districts decimal_digit tail.
Proof.
  intros Hne Hds Htail. destruct ds as [|d ds]; [done|].
  unfold replace_districts at 1.
  change (String.length ("Praha " +:+ String d ds +:+ tail))
    with (S (5 + String.length (String d ds +:+ tail))).
  rewrite sub_districts_S.
  rewrite (proj2 (strip_prefix_Some "Praha " _ (String d ds +:+ tail)) eq_refl).
  cbn [mbind option_bind]. rewrite string_app_cons.
  apply ascii_digits_cons in Hds as [Hds Hd]. rewrite Hd.
  f_equal. rewrite skip_digits_ascii; [|done..|rewrite string_app_length; lia].
  apply sub_districts_replace. cbn [String.length]. rewrite string_app_length. lia.
Qed.

(** The replacement turns a district of Prague, 'Praha ' and a number,
    into 'Praha' and goes on after the number; it never makes a text
    longer, and leaves a text without 'Praha ' as it is. *)
Theorem replace_districts_district ds tail :
  (ds ≠ "" → ascii_digits ds = true → decimal_digit tail = None →
   replace_districts decimal_digit ("Praha " +:+ ds +:+ tail)
   = "Praha" +:+ replace_districts decimal_digit tail) ∧
  (String.length (replace_districts decimal_digit tail) ≤ String.length tail)%nat ∧
  (PyStr.contains "Praha " tail = false →
   replace_districts decimal_digit tail = tail).
Proof.
  split_and!.
  - apply replace_district.
  - apply sub_districts_length.
  - apply sub_districts_other.
Qed.

(** The address of a school in a district of Prague: the city 'Praha '
    and a number becomes 'Praha', the comma stays, and the replacement
    goes on in the street and the house numbers. A row without a city
    makes [glue_address] raise [TypeError]. *)
Theorem district_address row ds :
  (Obec row = None → glue_address row = Raise TypeError) ∧
  (Obec row = Some ("Praha " +:+ ds) → ds ≠ "" → ascii_digits ds = true →
   ∃ addr,
     glue_address row = Ok addr ∧
     addr = "Praha " +:+ ds +:+ "," +:+ street_part row ∧
     replace_districts decimal_digit addr
     = "Praha," +:+ replace_districts decimal_digit (street_part row)).
Proof.
  split; [by unfold glue_address; intros ->|].
  intros Hobec Hne Hds. eexists. split; [by apply glue_address_Ok|].
  rewrite !string_app_assoc. split; [done|].
  assert (decimal_digit ("," +:+ street_part row) = None) as Hcomma.
  { rewrite string_app_cons, string_app_nil.
    by rewrite decimal_digit_ascii by (apply Nat.ltb_lt; reflexivity). }
  rewrite (replace_district ds ("," +:+ street_part row) Hne Hds Hcomma).
  change ("," +:+ street_part row) with (String "," (street_part row)).
  by rewrite replace_districts_other_char.
Qed.

End DistrictsFacts.

Section AddressColumn.

Variable decimal_digit : string → option string.




End AddressColumn.

Lemma ascii_decimal_digit_rest s rest :
  ascii_decimal_digit s = Some rest → ∃ c, c ≠ "" ∧ s = c +:+ rest.
Proof.
  destruct s as [|a s]; [done|]. unfold ascii_decimal_digit.
  destruct ((48 <=? nat_of_ascii a)%nat && (nat_of_ascii a <=? 57)%nat); [|done].
  intros [= ->]. by exists (String a "").
Qed.

Lemma replace_districts_district_witness :
  replace_districts ascii_decimal_digit ("Praha " +:+ "10" +:+ ", Nad Vodovodem 81")
  = "Praha" +:+ replace_districts ascii_decimal_digit ", Nad Vodovodem 81".
Proof.
  apply (proj1 (replace_districts_district ascii_decimal_digit
                  ascii_decimal_digit_rest (λ _ _ _, eq_refl)
                  "10" ", Nad Vodovodem 81")); done.
Defined.

Lemma district_address_witness :
  ∃ addr,
    glue_address (AddressParts (Some "Praha 5") None None None) = Ok addr ∧
    addr = "Praha " +:+ "5" +:+ "," +:+ "" ∧
    replace_districts ascii_decimal_digit addr
    = "Praha," +:+ replace_districts ascii_decimal_digit "".
Proof.
  apply (proj2 (district_address ascii_decimal_digit
                  ascii_decimal_digit_rest (λ _ _ _, eq_refl)
                  (AddressParts (Some "Praha 5") None None None) "5")); done.
Defined.


Example address_of_district_school :
  address_column ascii_decimal_digit [Sample.district_school]
  = Ok ["Praha, Ovocny trh 560/5"].
Proof. reflexivity. Qed.
